(** * MonoNote: persistence, backup codec and ledger statistics

    A shallow embedding of [storageService] (get/save, [exportData],
    [importData], [resetApplication]), of the ledger view's [summary],
    [dailyStats], [sortedTransactions], [handleSave] and [confirmDelete], of
    the notes view's [filteredNotes], [handleSaveNote] and [confirmDelete],
    and of the handlers and effects of [App], the header and the restore
    from a file, with the properties the specification states about them
    and further properties of the code.

    Conventions of the embedding.
    - A JavaScript string is the list of its UTF-16 code units ([list N]).
    - [localStorage] is a finite map from strings to strings; its capacity
      is not modelled, so [setItem] always succeeds.
    - What the platform provides ([JSON.parse], [JSON.stringify],
      [parseFloat], [Array.prototype.sort], the order in which an object
      enumerates its properties, truthiness, spread) follows ECMA-262.
    - A value produced by [JSON.parse] is a [json] tree.  The storage layer
      never computes with numbers, it only reads and re-prints them, so a
      number is carried there as its canonical decimal numeral (the digits
      [Number::toString] prints).  This agrees with IEEE doubles for
      literals of at most 15 significant digits within the double range.
    - The ledger computes with amounts; there a [number] is NaN, an infinity
      or an exact rational, so sums are exact where doubles would round.
    - An exception is an explicit [Throw] outcome; [console.error] is not
      modelled.  The messages passed to [alert] are kept in a list.
    - [localeCompare] and [toLowerCase] depend on the host's locale data and
      are parameters of the functions that call them. *)

From Stdlib Require Import ZArith NArith QArith String Ascii List Bool Lia Lqa.
From Stdlib Require Import DecimalN Permutation Sorted.
From stdpp Require Import gmap.
Import ListNotations.

Set Warnings "-register-all".

Local Open Scope N_scope.
Local Open Scope list_scope.

(** ** JavaScript strings *)

Module JSString.

Definition t := list N.

(** An ASCII literal as code units. *)
Definition lit (s : string) : t := map N_of_ascii (list_ascii_of_string s).

Definition eqb (a b : t) : bool := bool_decide (a = b).

(** [parts.join(sep)] *)
Fixpoint join (sep : t) (l : list t) : t :=
  match l with
  | [] => []
  | [x] => x
  | x :: l' => x ++ sep ++ join sep l'
  end.

Definition is_digit (c : N) : bool := (48 <=? c) && (c <=? 57).

Fixpoint chars_of_uint (u : Decimal.uint) : t :=
  match u with
  | Decimal.Nil => []
  | Decimal.D0 u' => 48 :: chars_of_uint u'
  | Decimal.D1 u' => 49 :: chars_of_uint u'
  | Decimal.D2 u' => 50 :: chars_of_uint u'
  | Decimal.D3 u' => 51 :: chars_of_uint u'
  | Decimal.D4 u' => 52 :: chars_of_uint u'
  | Decimal.D5 u' => 53 :: chars_of_uint u'
  | Decimal.D6 u' => 54 :: chars_of_uint u'
  | Decimal.D7 u' => 55 :: chars_of_uint u'
  | Decimal.D8 u' => 56 :: chars_of_uint u'
  | Decimal.D9 u' => 57 :: chars_of_uint u'
  end.

(** The digits of [s] up to its first character that is not a digit. *)
Fixpoint uint_of_chars (s : t) : Decimal.uint :=
  match s with
  | [] => Decimal.Nil
  | c :: s' =>
      if c =? 48 then Decimal.D0 (uint_of_chars s')
      else if c =? 49 then Decimal.D1 (uint_of_chars s')
      else if c =? 50 then Decimal.D2 (uint_of_chars s')
      else if c =? 51 then Decimal.D3 (uint_of_chars s')
      else if c =? 52 then Decimal.D4 (uint_of_chars s')
      else if c =? 53 then Decimal.D5 (uint_of_chars s')
      else if c =? 54 then Decimal.D6 (uint_of_chars s')
      else if c =? 55 then Decimal.D7 (uint_of_chars s')
      else if c =? 56 then Decimal.D8 (uint_of_chars s')
      else if c =? 57 then Decimal.D9 (uint_of_chars s')
      else Decimal.Nil
  end.

(** Decimal digits of a natural number, as [String(n)] prints them. *)
Definition of_N (n : N) : t := chars_of_uint (N.to_uint n).

(** The value of a run of decimal digits. *)
Definition to_N (s : t) : N := N.of_uint (uint_of_chars s).

(** The longest prefix of digits, and what follows it. *)
Fixpoint span_digits (s : t) : t * t :=
  match s with
  | [] => ([], [])
  | c :: s' =>
      if is_digit c then let (d, r) := span_digits s' in (c :: d, r)
      else ([], s)
  end.

Fixpoint drop_zeros (s : t) : t :=
  match s with
  | [] => []
  | c :: s' => if c =? 48 then drop_zeros s' else s
  end.

(** A canonical numeric string for an integer in [0, 2^32 - 2]: the keys
    that an object enumerates first, in numeric order. *)
Definition array_index (k : t) : option N :=
  match k with
  | [] => None
  | c :: k' =>
      if forallb is_digit k
         && (negb (c =? 48) || match k' with [] => true | _ => false end)
         && (length k <=? 10)%nat
         && (to_N k <=? 4294967294)
      then Some (to_N k)
      else None
  end.

End JSString.

Abbreviation jsstring := JSString.t.
Notation "'str' s" := (JSString.lit s%string) (at level 9, s at level 0, only parsing).

(** ** Numerals: the numbers of the storage layer *)

Module Numeral.

(** [digits] are the significant decimal digits (characters '0'..'9'),
    without leading or trailing zero; the value is
    0.d1d2...dk * 10^point, negated when [neg].  Zero has no digits. *)
Record t := Make { neg : bool; digits : jsstring; point : Z }.

Definition zero : t := Make false [] 0.

Definition is_zero (x : t) : bool :=
  match digits x with [] => true | _ => false end.

(** The numeral denoted by a literal with integer digits [ip], fraction
    digits [fp] and decimal exponent [e]. *)
Definition of_parts (sign : bool) (ip fp : jsstring) (e : Z) : t :=
  let all := ip ++ fp in
  let lead := JSString.drop_zeros all in
  let pt := (Z.of_nat (length ip) + e
             - (Z.of_nat (length all) - Z.of_nat (length lead)))%Z in
  match rev (JSString.drop_zeros (rev lead)) with
  | [] => zero
  | ds => Make sign ds pt
  end.

(** The digits [ds] with the decimal point after the [n]-th, in the layout
    that [Number::toString] chooses. *)
Definition magnitude (ds : jsstring) (n : Z) : jsstring :=
  let k := Z.of_nat (length ds) in
  if (k <=? n)%Z && (n <=? 21)%Z then
    ds ++ repeat 48 (Z.to_nat (n - k))
  else if (0 <? n)%Z && (n <=? 21)%Z then
    take (Z.to_nat n) ds ++ 46 :: drop (Z.to_nat n) ds
  else if (-6 <? n)%Z && (n <=? 0)%Z then
    48 :: 46 :: repeat 48 (Z.to_nat (- n)) ++ ds
  else
    take 1 ds ++ match drop 1 ds with [] => [] | fs => 46 :: fs end
    ++ 101 :: (if (n - 1 <? 0)%Z then 45 else 43)
    :: JSString.of_N (Z.to_N (Z.abs (n - 1))).

(** [Number::toString] on a finite number (radix 10). *)
Definition to_string (x : t) : jsstring :=
  match digits x with
  | [] => [48]
  | ds => (if neg x then [45] else []) ++ magnitude ds (point x)
  end.

End Numeral.

(** ** Ordinary objects used as string-keyed maps *)

Module JSObject.

Section Properties.
Context {V : Type}.

(** The own enumerable string-keyed properties of an ordinary object, in
    property enumeration order: array-index keys first, ascending, then the
    other keys in the order they were created. *)
Definition t := list (jsstring * V).

(** [o[k]] for a key that no prototype defines; [None] is [undefined]. *)
Fixpoint get (o : t) (k : jsstring) : option V :=
  match o with
  | [] => None
  | (k', v) :: o' => if JSString.eqb k' k then Some v else get o' k
  end.

Fixpoint replace (o : t) (k : jsstring) (v : V) : t :=
  match o with
  | [] => []
  | (k', v') :: o' =>
      if JSString.eqb k' k then (k', v) :: o' else (k', v') :: replace o' k v
  end.

(** Where a new array-index key [i] goes: before the first key that is not
    an array index or is a greater one. *)
Fixpoint insert_index (o : t) (i : N) (k : jsstring) (v : V) : t :=
  match o with
  | [] => [(k, v)]
  | (k', v') :: o' =>
      match JSString.array_index k' with
      | Some j => if j <? i then (k', v') :: insert_index o' i k v
                  else (k, v) :: o
      | None => (k, v) :: o
      end
  end.

(** [o[k] = v]: an existing property keeps its place. *)
Definition set (o : t) (k : jsstring) (v : V) : t :=
  match get o k with
  | Some _ => replace o k v
  | None =>
      match JSString.array_index k with
      | Some i => insert_index o i k v
      | None => o ++ [(k, v)]
      end
  end.

Definition set_all (o : t) (kvs : list (jsstring * V)) : t :=
  fold_left (fun acc kv => set acc (fst kv) (snd kv)) kvs o.

End Properties.
Arguments t : clear implicits.

End JSObject.

(** ** JSON values *)

Inductive json : Type :=
| JNull
| JBool (b : bool)
| JNum (n : Numeral.t)
| JStr (s : jsstring)
| JArr (l : list json)
| JObj (o : list (jsstring * json)).


(** ** [JSON.stringify] and [JSON.parse] *)

Module JSON.

Definition hex_digit (n : N) : N := if n <? 10 then 48 + n else 87 + n.

(** The six characters of a [\uXXXX] escape, in lower-case hexadecimal. *)
Definition unicode_escape (c : N) : jsstring :=
  [92; 117; hex_digit (c / 4096 mod 16); hex_digit (c / 256 mod 16);
   hex_digit (c / 16 mod 16); hex_digit (c mod 16)].

Definition is_high_surrogate (c : N) : bool := (55296 <=? c) && (c <=? 56319).
Definition is_low_surrogate (c : N) : bool := (56320 <=? c) && (c <=? 57343).

Definition starts_with_low_surrogate (s : jsstring) : bool :=
  match s with
  | c :: _ => is_low_surrogate c
  | [] => false
  end.

(** One code unit that is not a surrogate, as [QuoteJSONString] writes it. *)
Definition escape_char (c : N) : jsstring :=
  if c =? 8 then [92; 98]
  else if c =? 9 then [92; 116]
  else if c =? 10 then [92; 110]
  else if c =? 12 then [92; 102]
  else if c =? 13 then [92; 114]
  else if c =? 34 then [92; 34]
  else if c =? 92 then [92; 92]
  else if c <? 32 then unicode_escape c
  else [c].

(** [paired] holds when the previous unit was a high surrogate written raw,
    so this one is the low half of a pair. *)
Fixpoint quote_body (paired : bool) (s : jsstring) : jsstring :=
  match s with
  | [] => []
  | c :: s' =>
      if paired then c :: quote_body false s'
      else if is_high_surrogate c then
        if starts_with_low_surrogate s' then c :: quote_body true s'
        else unicode_escape c ++ quote_body false s'
      else if is_low_surrogate c then unicode_escape c ++ quote_body false s'
      else escape_char c ++ quote_body false s'
  end.

Definition quote (s : jsstring) : jsstring := 34 :: quote_body false s ++ [34].

Definition wrap (gap indent stepback : jsstring) (opening closing : N)
    (partial : list jsstring) : jsstring :=
  match partial with
  | [] => [opening; closing]
  | _ =>
      match gap with
      | [] => opening :: JSString.join [44] partial ++ [closing]
      | _ => opening :: 10 :: indent
             ++ JSString.join (44 :: 10 :: indent) partial
             ++ 10 :: stepback ++ [closing]
      end
  end.

(** [SerializeJSONProperty] with the indentation unit [gap]; [indent] is the
    current indentation. *)
Fixpoint serialize (gap indent : jsstring) (v : json) : jsstring :=
  match v with
  | JNull => str "null"
  | JBool true => str "true"
  | JBool false => str "false"
  | JNum n => Numeral.to_string n
  | JStr s => quote s
  | JArr l =>
      wrap gap (indent ++ gap) indent 91 93
        (map (serialize gap (indent ++ gap)) l)
  | JObj o =>
      wrap gap (indent ++ gap) indent 123 125
        (map (fun '(k, x) =>
                quote k ++ 58 :: match gap with [] => [] | _ => [32] end
                ++ serialize gap (indent ++ gap) x) o)
  end.

(** [JSON.stringify(v)] *)
Definition stringify (v : json) : jsstring := serialize [] [] v.

(** [JSON.stringify(v, null, 2)] *)
Definition stringify_pretty (v : json) : jsstring := serialize [32; 32] [] v.

Inductive parsed (A : Type) : Type :=
| Parsed (a : A) (rest : jsstring)
| Malformed
| Exhausted.
Arguments Parsed {A} a rest.
Arguments Malformed {A}.
Arguments Exhausted {A}.

Definition pmap {A B} (f : A -> B) (p : parsed A) : parsed B :=
  match p with
  | Parsed a r => Parsed (f a) r
  | Malformed => Malformed
  | Exhausted => Exhausted
  end.

Definition is_ws (c : N) : bool :=
  (c =? 32) || (c =? 9) || (c =? 10) || (c =? 13).

Fixpoint skip_ws (s : jsstring) : jsstring :=
  match s with
  | c :: s' => if is_ws c then skip_ws s' else s
  | [] => []
  end.

Definition hex_value (c : N) : option N :=
  if JSString.is_digit c then Some (c - 48)
  else if (97 <=? c) && (c <=? 102) then Some (c - 87)
  else if (65 <=? c) && (c <=? 70) then Some (c - 55)
  else None.

Definition hex4 (a b c d : N) : option N :=
  match hex_value a, hex_value b, hex_value c, hex_value d with
  | Some x, Some y, Some z, Some w => Some (x * 4096 + y * 256 + z * 16 + w)
  | _, _, _, _ => None
  end.

Definition simple_escape (c : N) : option N :=
  if c =? 34 then Some 34
  else if c =? 92 then Some 92
  else if c =? 47 then Some 47
  else if c =? 98 then Some 8
  else if c =? 102 then Some 12
  else if c =? 110 then Some 10
  else if c =? 114 then Some 13
  else if c =? 116 then Some 9
  else None.

(** The characters of a string literal after its opening quote. *)
Fixpoint parse_chars (s : jsstring) : parsed jsstring :=
  match s with
  | [] => Malformed
  | c :: s' =>
      if c =? 34 then Parsed [] s'
      else if c =? 92 then
        match s' with
        | [] => Malformed
        | e :: s'' =>
            if e =? 117 then
              match s'' with
              | h1 :: h2 :: h3 :: h4 :: s3 =>
                  match hex4 h1 h2 h3 h4 with
                  | Some u => pmap (cons u) (parse_chars s3)
                  | None => Malformed
                  end
              | _ => Malformed
              end
            else
              match simple_escape e with
              | Some u => pmap (cons u) (parse_chars s'')
              | None => Malformed
              end
        end
      else if c <? 32 then Malformed
      else pmap (cons c) (parse_chars s')
  end.

(** Digits that must not be empty. *)
Definition parse_digits1 (s : jsstring) : option (jsstring * jsstring) :=
  match JSString.span_digits s with
  | ([], _) => None
  | (d, r) => Some (d, r)
  end.

Definition parse_int_part (s : jsstring) : option (jsstring * jsstring) :=
  match s with
  | c :: s' => if c =? 48 then Some ([48], s') else parse_digits1 s
  | [] => None
  end.

Definition parse_fraction (s : jsstring) : option (jsstring * jsstring) :=
  match s with
  | c :: s' => if c =? 46 then parse_digits1 s' else Some ([], s)
  | [] => Some ([], s)
  end.

Definition parse_exponent (s : jsstring) : option (Z * jsstring) :=
  match s with
  | c :: s' =>
      if (c =? 101) || (c =? 69) then
        match s' with
        | g :: s'' =>
            if g =? 45 then
              match parse_digits1 s'' with
              | Some (d, r) => Some ((- Z.of_N (JSString.to_N d))%Z, r)
              | None => None
              end
            else
              match parse_digits1 (if g =? 43 then s'' else s') with
              | Some (d, r) => Some (Z.of_N (JSString.to_N d), r)
              | None => None
              end
        | [] => None
        end
      else Some (0%Z, s)
  | [] => Some (0%Z, s)
  end.

(** [int frac? exp?] *)
Definition parse_unsigned (sign : bool) (s : jsstring) : parsed Numeral.t :=
  match parse_int_part s with
  | None => Malformed
  | Some (ip, s1) =>
      match parse_fraction s1 with
      | None => Malformed
      | Some (fp, s2) =>
          match parse_exponent s2 with
          | None => Malformed
          | Some (e, s3) => Parsed (Numeral.of_parts sign ip fp e) s3
          end
      end
  end.

(** [-? int frac? exp?] *)
Definition parse_number (s : jsstring) : parsed Numeral.t :=
  match s with
  | c :: s' => if c =? 45 then parse_unsigned true s'
               else parse_unsigned false s
  | [] => Malformed
  end.

Fixpoint strip_prefix (p s : jsstring) : option jsstring :=
  match p, s with
  | [], _ => Some s
  | a :: p', b :: s' => if a =? b then strip_prefix p' s' else None
  | _ :: _, [] => None
  end.

Definition parse_literal (s : jsstring) : parsed json :=
  match strip_prefix (str "true") s with
  | Some r => Parsed (JBool true) r
  | None =>
      match strip_prefix (str "false") s with
      | Some r => Parsed (JBool false) r
      | None =>
          match strip_prefix (str "null") s with
          | Some r => Parsed JNull r
          | None => Malformed
          end
      end
  end.

(** Recursive descent; [fuel] bounds the nesting of calls. *)
Fixpoint parse_value (fuel : nat) (s : jsstring) {struct fuel} : parsed json :=
  match fuel with
  | O => Exhausted
  | S fuel' =>
      match skip_ws s with
      | [] => Malformed
      | c :: s' =>
          if c =? 123 then
            match skip_ws s' with
            | [] => Malformed
            | c' :: s'' =>
                if c' =? 125 then Parsed (JObj []) s''
                else pmap (fun kvs => JObj (JSObject.set_all [] kvs))
                          (parse_members fuel' s')
            end
          else if c =? 91 then
            match skip_ws s' with
            | [] => Malformed
            | c' :: s'' =>
                if c' =? 93 then Parsed (JArr []) s''
                else pmap JArr (parse_elements fuel' s')
            end
          else if c =? 34 then pmap JStr (parse_chars s')
          else if (c =? 45) || JSString.is_digit c then
            pmap JNum (parse_number (c :: s'))
          else parse_literal (c :: s')
      end
  end

with parse_elements (fuel : nat) (s : jsstring) {struct fuel}
    : parsed (list json) :=
  match fuel with
  | O => Exhausted
  | S fuel' =>
      match parse_value fuel' s with
      | Parsed v r =>
          match skip_ws r with
          | [] => Malformed
          | c :: r' =>
              if c =? 44 then pmap (cons v) (parse_elements fuel' r')
              else if c =? 93 then Parsed [v] r'
              else Malformed
          end
      | Malformed => Malformed
      | Exhausted => Exhausted
      end
  end

with parse_members (fuel : nat) (s : jsstring) {struct fuel}
    : parsed (list (jsstring * json)) :=
  match fuel with
  | O => Exhausted
  | S fuel' =>
      match skip_ws s with
      | [] => Malformed
      | q :: s1 =>
          if q =? 34 then
            match parse_chars s1 with
            | Parsed k s2 =>
                match skip_ws s2 with
                | [] => Malformed
                | c :: s3 =>
                    if c =? 58 then
                      match parse_value fuel' s3 with
                      | Parsed v r =>
                          match skip_ws r with
                          | [] => Malformed
                          | d :: r' =>
                              if d =? 44 then
                                pmap (cons (k, v)) (parse_members fuel' r')
                              else if d =? 125 then Parsed [(k, v)] r'
                              else Malformed
                          end
                      | Malformed => Malformed
                      | Exhausted => Exhausted
                      end
                    else Malformed
                end
            | Malformed => Malformed
            | Exhausted => Exhausted
            end
          else Malformed
      end
  end.

(** Enough fuel for any text: every two nested calls consume a character. *)
Definition fuel_for (s : jsstring) : nat := 2 * length s + 2.

(** [JSON.parse(text)]: [None] stands for the SyntaxError it throws. *)
Definition parse (text : jsstring) : option json :=
  match parse_value (fuel_for text) text with
  | Parsed v r => match skip_ws r with [] => Some v | _ => None end
  | _ => None
  end.

End JSON.

(** ** Values at run time: [undefined], truthiness, property access, spread *)

Module JSValue.

(** [None] is [undefined]. *)
Definition truthy (v : option json) : bool :=
  match v with
  | None => false
  | Some JNull => false
  | Some (JBool b) => b
  | Some (JNum n) => negb (Numeral.is_zero n)
  | Some (JStr s) => match s with [] => false | _ => true end
  | Some (JArr _) => true
  | Some (JObj _) => true
  end.

Definition isArray (v : option json) : bool :=
  match v with
  | Some (JArr _) => true
  | _ => false
  end.

(** [xs[0], xs[1], ...] with their index keys, counting from [i]. *)
Fixpoint indexed {A} (f : A -> json) (i : N) (xs : list A)
    : list (jsstring * json) :=
  match xs with
  | [] => []
  | x :: xs' => (JSString.of_N i, f x) :: indexed f (N.succ i) xs'
  end.

(** The own enumerable properties that [{...v}] copies. *)
Definition own_properties (v : option json) : list (jsstring * json) :=
  match v with
  | Some (JObj o) => o
  | Some (JArr l) => indexed (fun x => x) 0 l
  | Some (JStr s) => indexed (fun c => JStr [c]) 0 s
  | _ => []
  end.

(** [{ ...o, ...v }] for an object [o] *)
Definition spread (o : JSObject.t json) (v : option json) : JSObject.t json :=
  JSObject.set_all o (own_properties v).

End JSValue.

(** ** Completions *)

Inductive exn : Type :=
| SyntaxError
| TypeError
| Error (message : jsstring).

Inductive outcome (A : Type) : Type :=
| Ret (a : A)
| Throw (e : exn).
Arguments Ret {A} a.
Arguments Throw {A} e.

Definition try_catch {A} (body : outcome A) (handler : exn -> outcome A)
    : outcome A :=
  match body with
  | Ret a => Ret a
  | Throw e => handler e
  end.

Definition JSON_parse (text : jsstring) : outcome json :=
  match JSON.parse text with
  | Some v => Ret v
  | None => Throw SyntaxError
  end.

(** [v.name] for a name that no prototype defines and that is neither an
    index nor [length]: reading it from [null] throws, from an object it is
    the own property, from any other value it is [undefined]. *)
Definition get_prop (v : json) (name : jsstring) : outcome (option json) :=
  match v with
  | JNull => Throw TypeError
  | JObj o => Ret (JSObject.get o name)
  | _ => Ret None
  end.

(** ** src/constants.ts *)

Definition DEFAULT_NOTE_CATEGORIES : list jsstring :=
  [[29983; 27963]; [24037; 20316]; [28789; 24863]; [24453; 21150]].

Definition DEFAULT_LEDGER_CATEGORIES : list jsstring :=
  [[39184; 39278]; [20132; 36890]; [36141; 29289]; [24037; 36164];
   [23089; 20048]; [20854; 20182]].

Definition DEFAULT_QUOTE : jsstring :=
  [20445; 25345; 31616; 21333; 65292; 35760; 24405; 24403; 19979; 12290].

(** ** services/storageService *)

Module storageService.

Abbreviation storage := (gmap jsstring jsstring).

Definition NOTES : jsstring := str "mononote_notes".
Definition TRANSACTIONS : jsstring := str "mononote_transactions".
Definition SETTINGS : jsstring := str "mononote_settings".

Definition getItem (ls : storage) (key : jsstring) : option jsstring :=
  ls !! key.

Definition setItem (key value : jsstring) (ls : storage) : storage :=
  <[key := value]> ls.

(** The object literal
    [{ headerQuote: DEFAULT_QUOTE, noteCategories: ..., ledgerCategories: ... }] *)
Definition default_settings : JSObject.t json :=
  [(str "headerQuote", JStr DEFAULT_QUOTE);
   (str "noteCategories", JArr (map JStr DEFAULT_NOTE_CATEGORIES));
   (str "ledgerCategories", JArr (map JStr DEFAULT_LEDGER_CATEGORIES))].

(** [data ? JSON.parse(data) : []] *)
Definition parse_or_empty (data : option jsstring) : outcome json :=
  match data with
  | Some (c :: d) => JSON_parse (c :: d)
  | _ => Ret (JArr [])
  end.

Definition getNotes (ls : storage) : outcome json :=
  try_catch (parse_or_empty (getItem ls NOTES)) (fun _ => Ret (JArr [])).

Definition saveNotes (notes : json) (ls : storage) : storage :=
  setItem NOTES (JSON.stringify notes) ls.

Definition getTransactions (ls : storage) : outcome json :=
  try_catch (parse_or_empty (getItem ls TRANSACTIONS))
            (fun _ => Ret (JArr [])).

Definition saveTransactions (transactions : json) (ls : storage) : storage :=
  setItem TRANSACTIONS (JSON.stringify transactions) ls.

(** The [try] block either returns a value ([Some]) or falls through to the
    statement after it ([None]); the [catch] block is empty. *)
Definition getSettings (ls : storage) : outcome json :=
  match
    try_catch
      (match getItem ls SETTINGS with
       | Some (c :: d) =>
           match JSON_parse (c :: d) with
           | Ret v => Ret (Some v)
           | Throw e => Throw e
           end
       | _ => Ret None
       end)
      (fun _ => Ret None)
  with
  | Ret (Some v) => Ret v
  | Ret None => Ret (JObj default_settings)
  | Throw e => Throw e
  end.

Definition saveSettings (settings : json) (ls : storage) : storage :=
  setItem SETTINGS (JSON.stringify settings) ls.

(** [now] is what [new Date().toISOString()] returns. *)
Definition exportData (now : jsstring) (ls : storage) : outcome jsstring :=
  match parse_or_empty (getItem ls NOTES) with
  | Throw e => Throw e
  | Ret notes =>
      match parse_or_empty (getItem ls TRANSACTIONS) with
      | Throw e => Throw e
      | Ret transactions =>
          let settings :=
            match getItem ls SETTINGS with
            | Some (c :: d) =>
                match JSON_parse (c :: d) with
                | Ret parsedSettings =>
                    JSValue.spread default_settings (Some parsedSettings)
                | Throw _ => default_settings
                end
            | _ => default_settings
            end in
          let data :=
            JObj [(str "notes", notes);
                  (str "transactions", transactions);
                  (str "settings", JObj settings);
                  (str "exportDate", JStr now);
                  (str "version", JStr (str "1.0"))] in
          Ret (JSON.stringify_pretty data)
      end
  end.

(** Statements that read and write [localStorage] and may throw. *)
Definition M (A : Type) : Type := storage -> outcome A * storage.

Definition ret {A} (a : A) : M A := fun ls => (Ret a, ls).
Definition throw {A} (e : exn) : M A := fun ls => (Throw e, ls).
Definition lift {A} (o : outcome A) : M A := fun ls => (o, ls).
Definition write (key value : jsstring) : M unit :=
  fun ls => (Ret tt, setItem key value ls).

Definition bind {A B} (m : M A) (f : A -> M B) : M B :=
  fun ls =>
    match m ls with
    | (Ret a, ls') => f a ls'
    | (Throw e, ls') => (Throw e, ls')
    end.

Definition catch {A} (m : M A) (handler : exn -> M A) : M A :=
  fun ls =>
    match m ls with
    | (Ret a, ls') => (Ret a, ls')
    | (Throw e, ls') => handler e ls'
    end.

Definition when (b : bool) (m : M unit) : M unit := if b then m else ret tt.

Notation "'let*' x := m 'in' k" := (bind m (fun x => k))
  (at level 10, x name, m at level 100, k at level 200).
Notation "m ;; k" := (bind m (fun _ => k))
  (at level 100, k at level 200, right associativity).

Definition importData_body (jsonString : jsstring) : M bool :=
  let* data := lift (JSON_parse jsonString) in
  let* notes := lift (get_prop data (str "notes")) in
  let* transactions := lift (get_prop data (str "transactions")) in
  when (negb (JSValue.isArray notes) && negb (JSValue.isArray transactions))
       (throw (Error (str "Invalid data format"))) ;;
  when (JSValue.truthy notes)
       (write NOTES (JSON.stringify (default JNull notes))) ;;
  when (JSValue.truthy transactions)
       (write TRANSACTIONS (JSON.stringify (default JNull transactions))) ;;
  let* settings := lift (get_prop data (str "settings")) in
  when (JSValue.truthy settings)
       (let mergedSettings := JSValue.spread default_settings settings in
        write SETTINGS (JSON.stringify (JObj mergedSettings))) ;;
  ret true.

(** The result, and [localStorage] afterwards. *)
Definition importData (jsonString : jsstring) (ls : storage) : bool * storage :=
  match catch (importData_body jsonString) (fun _ => ret false) ls with
  | (Ret b, ls') => (b, ls')
  | (Throw _, ls') => (false, ls')
  end.

(** [localStorage.clear()] and the default settings written back. *)
Definition resetApplication (ls : storage) : storage :=
  setItem SETTINGS (JSON.stringify (JObj default_settings)) ∅.

End storageService.

(** ** Numbers of the ledger *)

Module Number.

(** A finite number is an exact rational: no rounding, no negative zero. *)
Inductive t : Type :=
| NaN
| NegInf
| Fin (q : Q)
| PosInf.

Definition zero : t := Fin 0.
Definition of_Z (z : Z) : t := Fin (inject_Z z).

Definition opp (x : t) : t :=
  match x with
  | NaN => NaN
  | NegInf => PosInf
  | Fin q => Fin (- q)
  | PosInf => NegInf
  end.

Definition add (x y : t) : t :=
  match x, y with
  | NaN, _ | _, NaN => NaN
  | Fin a, Fin b => Fin (a + b)
  | PosInf, NegInf | NegInf, PosInf => NaN
  | PosInf, _ | _, PosInf => PosInf
  | NegInf, _ | _, NegInf => NegInf
  end.

Definition sub (x y : t) : t := add x (opp y).

(** [x <= y]; false when either side is NaN. *)
Definition leb (x y : t) : bool :=
  match x, y with
  | NaN, _ | _, NaN => false
  | NegInf, _ => true
  | _, PosInf => true
  | Fin a, Fin b => Qle_bool a b
  | _, NegInf => false
  | PosInf, _ => false
  end.

(** [x < y]; false when either side is NaN. *)
Definition ltb (x y : t) : bool :=
  match x, y with
  | NaN, _ | _, NaN => false
  | PosInf, _ => false
  | _, NegInf => false
  | Fin a, Fin b => negb (Qle_bool b a)
  | NegInf, _ => true
  | _, PosInf => true
  end.


(** The value of a numeral. *)
Definition of_numeral (x : Numeral.t) : t :=
  let m := inject_Z (Z.of_N (JSString.to_N (Numeral.digits x))) in
  let e := (Numeral.point x - Z.of_nat (length (Numeral.digits x)))%Z in
  Fin ((if Numeral.neg x then - m else m) * Qpower 10 e).

End Number.

Abbreviation number := Number.t.

(** ** Global functions and string methods *)

(** WhiteSpace and LineTerminator code units. *)
Definition is_whitespace (c : N) : bool :=
  (c =? 9) || (c =? 10) || (c =? 11) || (c =? 12) || (c =? 13) || (c =? 32)
  || (c =? 160) || (c =? 5760) || ((8192 <=? c) && (c <=? 8202))
  || (c =? 8232) || (c =? 8233) || (c =? 8239) || (c =? 8287)
  || (c =? 12288) || (c =? 65279).

Fixpoint trimStart (s : jsstring) : jsstring :=
  match s with
  | c :: s' => if is_whitespace c then trimStart s' else s
  | [] => []
  end.

(** [s.trim()] *)
Definition trim (s : jsstring) : jsstring :=
  rev (trimStart (rev (trimStart s))).

(** [parseFloat(input)]: the longest prefix of the trimmed input that is a
    decimal literal, or NaN when there is none. *)
Definition parseFloat (input : jsstring) : number :=
  let s := trimStart input in
  let '(sign, s0) :=
    match s with
    | c :: r => if c =? 45 then (true, r)
                else if c =? 43 then (false, r) else (false, s)
    | [] => (false, s)
    end in
  match JSON.strip_prefix (str "Infinity") s0 with
  | Some _ => if sign then Number.NegInf else Number.PosInf
  | None =>
      let '(ip, s1) := JSString.span_digits s0 in
      let '(fp, s2) :=
        match s1 with
        | c :: r => if c =? 46 then JSString.span_digits r else ([], s1)
        | [] => ([], s1)
        end in
      match ip ++ fp with
      | [] => Number.NaN
      | _ =>
          let e := match JSON.parse_exponent s2 with
                   | Some (e, _) => e
                   | None => 0%Z
                   end in
          Number.of_numeral (Numeral.of_parts sign ip fp e)
      end
  end.

(** [s.split(sep)] for a one-character separator. *)
Fixpoint split (sep : N) (s : jsstring) : list jsstring :=
  match s with
  | [] => [[]]
  | c :: s' =>
      if c =? sep then [] :: split sep s'
      else match split sep s' with
           | seg :: segs => (c :: seg) :: segs
           | [] => [[c]]
           end
  end.

(** [s.includes(q)] *)
Fixpoint includes (s q : jsstring) : bool :=
  match JSON.strip_prefix q s with
  | Some _ => true
  | None =>
      match s with
      | [] => false
      | _ :: s' => includes s' q
      end
  end.








(** [Array.prototype.sort(comparefn)] for a consistent comparator: a stable
    sort in which [a] stays before [b] unless [comparefn(a, b) > 0]; a NaN
    result counts as 0. *)
Section Sort.
Context {A : Type} (comparefn : A -> A -> number).

Definition after (a b : A) : bool := Number.ltb Number.zero (comparefn a b).

Fixpoint sort_insert (x : A) (l : list A) : list A :=
  match l with
  | [] => [x]
  | y :: l' => if after x y then y :: sort_insert x l' else x :: y :: l'
  end.

Fixpoint Array_sort (l : list A) : list A :=
  match l with
  | [] => []
  | x :: l' => sort_insert x (Array_sort l')
  end.

End Sort.

(** ** views/LedgerView *)

Module LedgerView.

(** ['income' | 'expense'] *)
Inductive TransactionType : Type := Income | Expense.

#[global] Instance TransactionType_eq_dec : EqDecision TransactionType.
Proof. solve_decision. Defined.

Definition type_name (ty : TransactionType) : jsstring :=
  match ty with
  | Income => str "income"
  | Expense => str "expense"
  end.

(** [timestamp] is what [Date.now()] returned, whole milliseconds. *)
Record Transaction : Type := {
  id : jsstring;
  amount : number;
  type : TransactionType;
  category : jsstring;
  description : jsstring;
  date : jsstring;
  timestamp : Z
}.

Definition INCOME_COLORS : list jsstring :=
  [str "#10b981"; str "#3b82f6"; str "#06b6d4"; str "#8b5cf6"].
Definition EXPENSE_COLORS : list jsstring :=
  [str "#ef4444"; str "#f59e0b"; str "#ec4899"; str "#f43f5e"; str "#6366f1"].


(** The two running totals after one more transaction. *)
Definition tally (acc : number * number) (t : Transaction) : number * number :=
  match type t with
  | Income => (Number.add (fst acc) (amount t), snd acc)
  | Expense => (fst acc, Number.add (snd acc) (amount t))
  end.


(** An entry of [categoryMap]. *)
Record Group : Type := { group_value : number; group_type : TransactionType }.

(** An entry of [pieData]; [name] is [undefined] ([None]) when the key has
    no second segment. *)
Record Slice : Type := {
  name : option jsstring;
  value : number;
  slice_type : TransactionType;
  color : option jsstring
}.

Record DailyStats : Type := {
  day_income : number;
  day_expense : number;
  totalVolume : number;
  pieData : list Slice;
  dayTransactions : list Transaction
}.

(** [`${t.type}-${t.category}`] *)
Definition group_key (t : Transaction) : jsstring :=
  type_name (type t) ++ 45 :: category t.

(** The body of [dayTransactions.forEach] on [categoryMap]. *)
Definition add_to_group (categoryMap : JSObject.t Group) (t : Transaction)
    : JSObject.t Group :=
  let key := group_key t in
  let categoryMap' :=
    match JSObject.get categoryMap key with
    | Some _ => categoryMap
    | None => JSObject.set categoryMap key
                {| group_value := Number.zero; group_type := type t |}
    end in
  match JSObject.get categoryMap' key with
  | Some g => JSObject.set categoryMap' key
                {| group_value := Number.add (group_value g) (amount t);
                   group_type := group_type g |}
  | None => categoryMap'
  end.

(** [Object.entries(categoryMap).map(...)] with its two counters. *)
Fixpoint assign_colors (incomeIdx expenseIdx : nat)
    (entries : list (jsstring * Group)) : list Slice :=
  match entries with
  | [] => []
  | (key, data) :: rest =>
      let categoryName := nth_error (split 45 key) 1 in
      match group_type data with
      | Income =>
          {| name := categoryName; value := group_value data;
             slice_type := group_type data;
             color := nth_error INCOME_COLORS
                        (incomeIdx mod length INCOME_COLORS) |}
          :: assign_colors (S incomeIdx) expenseIdx rest
      | Expense =>
          {| name := categoryName; value := group_value data;
             slice_type := group_type data;
             color := nth_error EXPENSE_COLORS
                        (expenseIdx mod length EXPENSE_COLORS) |}
          :: assign_colors incomeIdx (S expenseIdx) rest
      end
  end.

Definition by_time_desc (a b : Transaction) : number :=
  Number.of_Z (timestamp b - timestamp a).

Definition by_value_desc (a b : Slice) : number :=
  Number.sub (value b) (value a).

Definition dailyStats (transactions : list Transaction) (statsDate : jsstring)
    : DailyStats :=
  let dayTransactions :=
    Array_sort by_time_desc
      (filter (fun t => date t = statsDate) transactions) in
  let '(income, expense) :=
    fold_left tally dayTransactions (Number.zero, Number.zero) in
  let categoryMap := fold_left add_to_group dayTransactions [] in
  let totalVolume := Number.add income expense in
  let pieData := Array_sort by_value_desc (assign_colors 0 0 categoryMap) in
  {| day_income := income; day_expense := expense;
     totalVolume := totalVolume; pieData := pieData;
     dayTransactions := dayTransactions |}.

(** The state that [handleSave] reads and writes: the [transactions] prop,
    the component's state hooks, and the messages passed to [alert]. *)
Record View : Type := {
  transactions : list Transaction;
  isModalOpen : bool;
  editingId : option jsstring;
  form_amount : jsstring;
  form_desc : jsstring;
  form_type : TransactionType;
  form_category : jsstring;
  form_date : jsstring;
  alerts : list jsstring
}.

Definition INVALID_AMOUNT : jsstring :=
  [35831; 36755; 20837; 26377; 25928; 30340; 37329; 39069].

(** [uuid] is what [safeUUID()] returns and [now] what [Date.now()]
    returns. *)
Definition handleSave (uuid : jsstring) (now : Z) (v : View) : View :=
  if match form_amount v with [] => true | _ => false end
     || Number.leb (parseFloat (form_amount v)) Number.zero
  then
    {| transactions := transactions v; isModalOpen := isModalOpen v;
       editingId := editingId v; form_amount := form_amount v;
       form_desc := form_desc v; form_type := form_type v;
       form_category := form_category v; form_date := form_date v;
       alerts := alerts v ++ [INVALID_AMOUNT] |}
  else
    let description :=
      match trim (form_desc v) with
      | [] => form_category v
      | d => d
      end in
    let transactions' :=
      match editingId v with
      | Some (c :: e) =>
          map (fun t =>
                 if JSString.eqb (id t) (c :: e)
                 then {| id := id t;
                         amount := parseFloat (form_amount v);
                         type := form_type v;
                         category := form_category v;
                         description := description;
                         date := form_date v;
                         timestamp := timestamp t |}
                 else t)
              (transactions v)
      | _ =>
          {| id := uuid;
             amount := parseFloat (form_amount v);
             type := form_type v;
             category := form_category v;
             description := description;
             date := form_date v;
             timestamp := now |} :: transactions v
      end in
    {| transactions := transactions'; isModalOpen := false;
       editingId := None; form_amount := []; form_desc := [];
       form_type := form_type v; form_category := form_category v;
       form_date := form_date v; alerts := alerts v |}.

(** The comparator of [sortedTransactions]; [localeCompare] is the host's
    [String.prototype.localeCompare]. *)
Definition by_date_then_time (localeCompare : jsstring -> jsstring -> number)
    (a b : Transaction) : number :=
  if negb (JSString.eqb (date a) (date b))
  then localeCompare (date b) (date a)
  else Number.of_Z (timestamp b - timestamp a).

Definition sortedTransactions (localeCompare : jsstring -> jsstring -> number)
    (transactions : list Transaction) : list Transaction :=
  Array_sort (by_date_then_time localeCompare) transactions.

(** [confirmDelete] reads and clears one more state hook, [deleteId]; it is
    passed beside the rest of the state and returned with it. *)
Definition confirmDelete (deleteId : option jsstring) (v : View)
    : View * option jsstring :=
  match deleteId with
  | Some (c :: d) =>
      let editing_deleted :=
        match editingId v with
        | Some e => JSString.eqb e (c :: d)
        | None => false
        end in
      ({| transactions := filter (fun t => id t <> c :: d) (transactions v);
          isModalOpen := if editing_deleted then false else isModalOpen v;
          editingId := if editing_deleted then None else editingId v;
          form_amount := form_amount v; form_desc := form_desc v;
          form_type := form_type v; form_category := form_category v;
          form_date := form_date v; alerts := alerts v |}, None)
  | _ => (v, deleteId)
  end.

End LedgerView.

(** ** views/NotesView *)

Module NotesView.

(** [createdAt] is what [Date.now()] returned, whole milliseconds. *)
Record Note : Type := {
  id : jsstring;
  content : jsstring;
  category : jsstring;
  createdAt : Z;
  color : jsstring
}.

(** The filter that shows every category. *)
Definition ALL : jsstring := [20840; 37096].

(** The [notes] prop and the component's state hooks. *)
Record View : Type := {
  notes : list Note;
  isModalOpen : bool;
  searchQuery : jsstring;
  selectedCategory : jsstring;
  deleteId : option jsstring;
  editingId : option jsstring;
  newNoteContent : jsstring;
  newNoteCategory : jsstring;
  newNoteColor : jsstring
}.

Definition by_created_desc (a b : Note) : number :=
  Number.of_Z (createdAt b - createdAt a).

(** The predicate of [notes.filter]; [toLowerCase] is the host's
    [String.prototype.toLowerCase]. *)
Definition matches (toLowerCase : jsstring -> jsstring) (v : View)
    (note : Note) : bool :=
  let matchesSearch :=
    includes (toLowerCase (content note)) (toLowerCase (searchQuery v)) in
  let matchesCategory :=
    JSString.eqb (selectedCategory v) ALL
    || JSString.eqb (category note) (selectedCategory v) in
  matchesSearch && matchesCategory.

Definition filteredNotes (toLowerCase : jsstring -> jsstring) (v : View)
    : list Note :=
  Array_sort by_created_desc
    (filter (fun note => matches toLowerCase v note = true) (notes v)).

Definition openEditNoteModal (note : Note) (v : View) : View :=
  {| notes := notes v; isModalOpen := true; searchQuery := searchQuery v;
     selectedCategory := selectedCategory v; deleteId := deleteId v;
     editingId := Some (id note); newNoteContent := content note;
     newNoteCategory := category note; newNoteColor := color note |}.

(** [uuid] is what [safeUUID()] returns and [now] what [Date.now()]
    returns. *)
Definition handleSaveNote (uuid : jsstring) (now : Z) (v : View) : View :=
  match trim (newNoteContent v) with
  | [] => v
  | _ =>
      let notes' :=
        match editingId v with
        | Some (c :: e) =>
            map (fun note =>
                   if JSString.eqb (id note) (c :: e)
                   then {| id := id note;
                           content := newNoteContent v;
                           category := newNoteCategory v;
                           createdAt := createdAt note;
                           color := newNoteColor v |}
                   else note)
                (notes v)
        | _ =>
            {| id := uuid;
               content := newNoteContent v;
               category := newNoteCategory v;
               createdAt := now;
               color := newNoteColor v |} :: notes v
        end in
      {| notes := notes'; isModalOpen := false; searchQuery := searchQuery v;
         selectedCategory := selectedCategory v; deleteId := deleteId v;
         editingId := None; newNoteContent := [];
         newNoteCategory := newNoteCategory v;
         newNoteColor := newNoteColor v |}
  end.

Definition confirmDelete (v : View) : View :=
  match deleteId v with
  | Some (c :: d) =>
      let editing_deleted :=
        match editingId v with
        | Some e => JSString.eqb e (c :: d)
        | None => false
        end in
      {| notes := filter (fun n => id n <> c :: d) (notes v);
         isModalOpen := if editing_deleted then false else isModalOpen v;
         searchQuery := searchQuery v;
         selectedCategory := selectedCategory v; deleteId := None;
         editingId := if editing_deleted then None else editingId v;
         newNoteContent := newNoteContent v;
         newNoteCategory := newNoteCategory v;
         newNoteColor := newNoteColor v |}
  | _ => v
  end.

End NotesView.

(** ** App *)

Module App.
Import storageService.

(** ['notes' | 'ledger' | 'settings'] *)
Inductive ViewState : Type := Notes | Ledger | Settings.

(** The state hooks of [App], holding what [JSON.parse] gave them, and the
    messages passed to [alert]. *)
Record State : Type := {
  view : ViewState;
  notes : json;
  transactions : json;
  settings : json;
  isLoaded : bool;
  alerts : list jsstring
}.



Definition read {A} (f : storage -> outcome A) : M A := fun ls => (f ls, ls).

(** The effect that runs on mount. *)
Definition load (st : State) : M State :=
  let* notes' := read getNotes in
  let* transactions' := read getTransactions in
  let* savedSettings := read getSettings in
  ret {| view := view st; notes := notes'; transactions := transactions';
         settings := if JSValue.truthy (Some savedSettings)
                     then savedSettings else settings st;
         isLoaded := true; alerts := alerts st |}.




(** [{ ...settings, headerQuote: newQuote }] is set and saved; the result
    is the state and [localStorage] afterwards. *)
Definition handleUpdateQuote (newQuote : jsstring) (st : State) (ls : storage)
    : State * storage :=
  let newSettings :=
    JObj (JSObject.set (JSValue.spread [] (Some (settings st)))
                       (str "headerQuote") (JStr newQuote)) in
  ({| view := view st; notes := notes st; transactions := transactions st;
      settings := newSettings; isLoaded := isLoaded st;
      alerts := alerts st |},
   saveSettings newSettings ls).

Definition handleReset (st : State) (ls : storage) : State * storage :=
  ({| view := Notes; notes := JArr []; transactions := JArr [];
      settings := JObj default_settings; isLoaded := isLoaded st;
      alerts := alerts st |},
   resetApplication ls).


End App.

(** ** components/Header *)

Module Header.

(** [handleSave] with the [onUpdateQuote] prop acting on the state [S] of
    its owner; the result is that state and [isEditing]. *)
Definition handleSave {S} (onUpdateQuote : jsstring -> S -> S)
    (tempQuote : jsstring) (s : S) : S * bool :=
  (match trim tempQuote with
   | [] => s
   | _ => onUpdateQuote tempQuote s
   end, false).

End Header.

(** ** views/SettingsView *)

Module SettingsView.
Import storageService.



End SettingsView.

(** * What the specification says, in its own words *)

Module Spec.
Import LedgerView storageService.

(** The document stored under a key: what the text there parses to, when
    there is a text and it parses. *)
Definition stored (ls : storage) (key : jsstring) : option json :=
  match ls !! key with
  | Some text => JSON.parse text
  | None => None
  end.

(** A field of a parsed document; [None] when the document is not an object
    or has no such field. *)
Definition field (data : json) (name : jsstring) : option json :=
  match data with
  | JObj o => JSObject.get o name
  | _ => None
  end.

(** [key] overwritten with the text of [v] when [v] is truthy. *)
Definition overwrite_if_truthy (key : jsstring) (v : option json)
    (text : json -> jsstring) (ls : storage) : storage :=
  match v with
  | Some x => if JSValue.truthy v then <[key := text x]> ls else ls
  | None => ls
  end.

(** The sum of a sequence of amounts, added from the left starting at 0. *)
Definition sum (l : list number) : number :=
  fold_left Number.add l Number.zero.

Definition amounts_of (ty : TransactionType) (ts : list Transaction)
    : list number :=
  map amount (filter (fun t => type t = ty) ts).


Definition pair_of (t : Transaction) : TransactionType * jsstring :=
  (type t, category t).

(** The distinct elements of a list, in the order they first occur. *)
Fixpoint distinct {A} `{EqDecision A} (l : list A) : list A :=
  match l with
  | [] => []
  | x :: l' => x :: filter (fun y => y <> x) (distinct l')
  end.

(** The summed amount of the day's transactions of one (type, category). *)
Definition group_sum (p : TransactionType * jsstring) (day : list Transaction)
    : number :=
  sum (map amount (filter (fun t => pair_of t = p) day)).

(** The part of a category before its first hyphen. *)
Fixpoint before_hyphen (c : jsstring) : jsstring :=
  match c with
  | [] => []
  | x :: c' => if x =? 45 then [] else x :: before_hyphen c'
  end.

Definition palette (ty : TransactionType) : list jsstring :=
  match ty with
  | Income => INCOME_COLORS
  | Expense => EXPENSE_COLORS
  end.

(** How many of the first [i] groups have the type [ty]. *)
Definition rank (groups : list (TransactionType * jsstring)) (i : nat)
    (ty : TransactionType) : nat :=
  length (filter (fun q => fst q = ty) (take i groups)).

(** The breakdown entry of the [i]-th group [p]. *)
Definition slice_of (groups : list (TransactionType * jsstring))
    (day : list Transaction) (i : nat) (p : TransactionType * jsstring)
    : Slice :=
  {| name := Some (before_hyphen (snd p));
     value := group_sum p day;
     slice_type := fst p;
     color := nth_error (palette (fst p))
                (rank groups i (fst p) mod length (palette (fst p))) |}.

(** One entry per distinct (type, category), in first-encounter order. *)
Definition breakdown (day : list Transaction) : list Slice :=
  let groups := distinct (map pair_of day) in
  imap (slice_of groups day) groups.

End Spec.

(** * Vocabulary of the statements and proofs *)

Section Vocabulary.
Import JSString JSON LedgerView storageService Spec.

(** A JSON text written with ['] for the double quote. *)
Definition json_text (s : string) : jsstring :=
  map (fun c => if c =? 39 then 34 else c) (JSString.lit s).


(** Settings that merging over the defaults leaves as they are. *)
Definition complete_settings (s : list (jsstring * json)) : Prop :=
  JSValue.spread default_settings (Some (JObj s)) = s.


(** The day's transactions, newest first. *)
Definition day_of (ts : list Transaction) (d : jsstring) : list Transaction :=
  Array_sort by_time_desc (filter (fun t => date t = d) ts).

(** The key of [categoryMap] for a (type, category). *)
Definition key_of_pair (p : TransactionType * jsstring) : jsstring :=
  type_name (fst p) ++ 45 :: snd p.

(** An object with one property per group. *)
Definition entries {V} (g : TransactionType * jsstring -> V)
    (gs : list (TransactionType * jsstring)) : JSObject.t V :=
  map (fun p => (key_of_pair p, g p)) gs.

Definition group_entry (day : list Transaction) (p : TransactionType * jsstring)
    : Group :=
  {| group_value := group_sum p day; group_type := fst p |}.

(** The guard at the head of [handleSave]. *)
Definition rejected (v : View) : Prop :=
  form_amount v = []
  \/ Number.leb (parseFloat (form_amount v)) Number.zero = true.

Definition digits_only (s : jsstring) : Prop :=
  Forall (fun c => is_digit c = true) s.

(** What may follow a serialized value: nothing, a comma, a line feed, or a
    closing bracket or brace. *)
Definition delimited (rest : jsstring) : Prop :=
  match rest with
  | [] => True
  | c :: _ => c = 44 \/ c = 10 \/ c = 93 \/ c = 125
  end.

(** A canonical numeral: digits only, without leading or trailing zero;
    zero has no digits, no sign and point 0. *)
Definition numeral_wf (x : Numeral.t) : Prop :=
  digits_only (Numeral.digits x)
  /\ drop_zeros (Numeral.digits x) = Numeral.digits x
  /\ drop_zeros (rev (Numeral.digits x)) = rev (Numeral.digits x)
  /\ (Numeral.digits x = [] -> Numeral.neg x = false /\ Numeral.point x = 0%Z).

Definition ws_only (s : jsstring) : Prop := Forall (fun c => is_ws c = true) s.

(** A bound on the fuel that parsing the text of [v] needs. *)
Fixpoint json_size (v : json) : nat :=
  match v with
  | JArr l => S (fold_right (fun x n => S (json_size x + n)) 0%nat l)
  | JObj o => S (fold_right (fun '(_, x) n => S (json_size x + n)) 0%nat o)
  | _ => 1
  end.

Definition size_list (l : list json) : nat :=
  fold_right (fun x n => S (json_size x + n)) 0%nat l.

Definition size_members (o : list (jsstring * json)) : nat :=
  fold_right (fun '(_, x) n => S (json_size x + n)) 0%nat o.

(** The trees that stand for a JavaScript value: numerals in canonical form,
    and the properties of each object in enumeration order without
    repetition (assigning them one by one to an empty object gives the same
    list). *)
Fixpoint json_wf (v : json) : Prop :=
  match v with
  | JNum n => numeral_wf n
  | JArr l => fold_right (fun x P => json_wf x /\ P) True l
  | JObj o => JSObject.set_all [] o = o
              /\ fold_right (fun '(_, x) P => json_wf x /\ P) True o
  | _ => True
  end.

(** The opening and closing white space that [wrap] puts around the items
    of a container that is not empty. *)
Definition open_ws (gap indent : jsstring) : jsstring :=
  match gap with [] => [] | _ => 10 :: indent end.

(** [v] reads back from its text, whatever the indentation, in front of
    any delimiter. *)
Definition reads_back (v : json) : Prop :=
  forall gap indent rest fuel,
    ws_only gap -> ws_only indent -> delimited rest ->
    (json_size v <= fuel)%nat -> json_wf v ->
    parse_value fuel (serialize gap indent v ++ rest) = Parsed v rest.

(** An expense of 1 in the category [c], dated 2024-01-01. *)
Definition sample (c : jsstring) : Transaction :=
  {| id := str "1"; amount := Number.of_Z 1; type := Expense; category := c;
     description := c; date := str "2024-01-01"; timestamp := 0 |}.




(** Whether the key [k1] may stand before the key [k2] in an object: an
    array index only follows smaller array indices. *)
Definition key_before (k1 k2 : jsstring) : Prop :=
  match array_index k2 with
  | Some j => match array_index k1 with Some i => i < j | None => False end
  | None => True
  end.

(** Properties in enumeration order, no key twice. *)
Definition ordered {V} (o : JSObject.t V) : Prop :=
  NoDup (map fst o) /\ StronglySorted key_before (map fst o).

(** The key holds a text that is not empty and is not JSON. *)
Definition unreadable (ls : storage) (key : jsstring) : Prop :=
  exists c text, ls !! key = Some (c :: text) /\ JSON.parse (c :: text) = None.

(** The stored settings merged over the defaults; the defaults when nothing
    readable is stored. *)
Definition merged_settings (ls : storage) : json :=
  JObj (JSValue.spread default_settings (stored ls SETTINGS)).

(** The document that [exportData] prints. *)
Definition backup (notes transactions settings : json) (now : jsstring)
    : json :=
  JObj [(str "notes", notes); (str "transactions", transactions);
        (str "settings", settings); (str "exportDate", JStr now);
        (str "version", JStr (str "1.0"))].

(** No amount is zero or negative; NaN is neither. *)
Definition no_amount_le_zero (ts : list Transaction) : Prop :=
  Forall (fun t => Number.leb (amount t) Number.zero = false) ts.

(** The transaction being edited, if any, is in the list. *)
Definition editing_listed (v : View) : Prop :=
  forall e, editingId v = Some e -> e ∈ map id (transactions v).

(** [x] sorts after [y]: [x.localeCompare(y) > 0]. *)
Definition sorts_after (localeCompare : jsstring -> jsstring -> number)
    (x y : jsstring) : Prop :=
  Number.ltb Number.zero (localeCompare x y) = true.

(** On the dates [ds], [localeCompare] is a strict total order. *)
Definition orders_dates (localeCompare : jsstring -> jsstring -> number)
    (ds : list jsstring) : Prop :=
  (forall x y, x ∈ ds -> y ∈ ds -> x <> y ->
     sorts_after localeCompare x y \/ sorts_after localeCompare y x)
  /\ (forall x y, x ∈ ds -> y ∈ ds ->
        sorts_after localeCompare x y -> ~ sorts_after localeCompare y x)
  /\ (forall x y z, x ∈ ds -> y ∈ ds -> z ∈ ds ->
        sorts_after localeCompare x y -> sorts_after localeCompare y z ->
        sorts_after localeCompare x z).

(** [a] is listed before [b]: a later date first, and on one date the later
    timestamp first. *)
Definition newer_first (localeCompare : jsstring -> jsstring -> number)
    (a b : Transaction) : Prop :=
  if decide (date a = date b) then (timestamp b <= timestamp a)%Z
  else sorts_after localeCompare (date a) (date b).

(** Comparison by code units, with the sign as a number. *)
Fixpoint code_unit_compare (x y : jsstring) : number :=
  match x, y with
  | [], [] => Number.zero
  | [], _ :: _ => Number.of_Z (-1)
  | _ :: _, [] => Number.of_Z 1
  | a :: x', b :: y' =>
      if a <? b then Number.of_Z (-1)
      else if b <? a then Number.of_Z 1
      else code_unit_compare x' y'
  end.

(** The note being edited, if any, is in the list. *)
Definition note_editing_listed (v : NotesView.View) : Prop :=
  forall e, NotesView.editingId v = Some e ->
            e ∈ map NotesView.id (NotesView.notes v).

(** No note is blank. *)
Definition no_blank_note (ns : list NotesView.Note) : Prop :=
  Forall (fun n => trim (NotesView.content n) <> []) ns.

(** A note is listed before an older one. *)
Definition newest_first (a b : NotesView.Note) : Prop :=
  (NotesView.createdAt b <= NotesView.createdAt a)%Z.

(** The shape of an object grown from [d]: array indices, then the keys of
    [d] in their places, then the keys added since. *)
Definition grown_from {V} (d o : JSObject.t V) : Prop :=
  exists idx d' extra,
    o = idx ++ d' ++ extra
    /\ map fst d' = map fst d
    /\ Forall (fun k => array_index k <> None) (map fst idx).

End Vocabulary.

(** * Properties of the ledger statistics *)

Section SummaryFacts.
Import LedgerView Spec.

Lemma tally_fold ts : forall i e,
  fold_left tally ts (i, e)
  = (fold_left Number.add (amounts_of Income ts) i,
     fold_left Number.add (amounts_of Expense ts) e).
Proof.
  induction ts as [|t ts IH]; intros i e; [reflexivity|].
  cbn [fold_left]. unfold tally at 2. unfold amounts_of in *.
  rewrite !filter_cons. destruct (type t) eqn:Hty; cbn [fst snd].
  - rewrite decide_True by done. rewrite decide_False by done.
    cbn [map fold_left]. apply IH.
  - rewrite decide_False by done. rewrite decide_True by done.
    cbn [map fold_left]. apply IH.
Qed.


End SummaryFacts.

(** ** [Array.prototype.sort] *)

Section SortFacts.
Context {A : Type} (comparefn : A -> A -> number).

Lemma sort_insert_perm x l : Permutation (sort_insert comparefn x l) (x :: l).
Proof.
  induction l as [|y l IH]; cbn [sort_insert]; [reflexivity|].
  destruct (after comparefn x y); [|reflexivity].
  rewrite IH. apply perm_swap.
Qed.

Lemma Array_sort_perm l : Permutation (Array_sort comparefn l) l.
Proof.
  induction l as [|x l IH]; cbn [Array_sort]; [reflexivity|].
  rewrite sort_insert_perm. now constructor.
Qed.


(** An order that the comparator decides on the elements satisfying [P]. *)
Context (P : A -> Prop) (R : A -> A -> Prop).
Hypothesis R_trans : forall a b c, P a -> P b -> P c -> R a b -> R b c -> R a c.
Hypothesis after_false :
  forall a b, P a -> P b -> after comparefn a b = false -> R a b.
Hypothesis after_true :
  forall a b, P a -> P b -> after comparefn a b = true -> R b a.

Lemma sort_insert_sorted x l :
  P x -> Forall P l -> StronglySorted R l ->
  StronglySorted R (sort_insert comparefn x l).
Proof.
  intros Px Pl Hs. induction Hs as [|y l Hl IH Hy]; cbn [sort_insert].
  - repeat constructor.
  - apply Forall_cons in Pl as [Py Pl].
    destruct (after comparefn x y) eqn:Hxy.
    + constructor; [now apply IH|].
      rewrite sort_insert_perm. constructor; [now apply after_true|exact Hy].
    + constructor; [now constructor|].
      constructor; [now apply after_false|].
      rewrite Forall_forall in Hy, Pl. apply Forall_forall.
      intros z Hz. apply (R_trans x y z); auto.
Qed.

Lemma Array_sort_sorted l :
  Forall P l -> StronglySorted R (Array_sort comparefn l).
Proof.
  induction l as [|x l IH]; cbn [Array_sort]; [constructor|].
  intros [Px Pl]%Forall_cons. apply sort_insert_sorted; auto.
  now rewrite Array_sort_perm.
Qed.

End SortFacts.

(** ** Order on finite numbers *)

Section NumberFacts.






End NumberFacts.

(** ** Objects as maps *)

Section ObjectFacts.
Context {V : Type}.
Implicit Types (o : JSObject.t V) (k : jsstring) (v : V).

Lemma eqb_refl k : JSString.eqb k k = true.
Proof. unfold JSString.eqb. now apply bool_decide_eq_true_2. Qed.

Lemma eqb_eq k k' : JSString.eqb k k' = true <-> k = k'.
Proof. unfold JSString.eqb. apply bool_decide_eq_true. Qed.

Lemma set_fresh o k v :
  JSObject.get o k = None -> JSString.array_index k = None ->
  JSObject.set o k v = o ++ [(k, v)].
Proof. intros Hg Hi. unfold JSObject.set. now rewrite Hg, Hi. Qed.

Lemma set_present o k v x :
  JSObject.get o k = Some x -> JSObject.set o k v = JSObject.replace o k v.
Proof. intros Hg. unfold JSObject.set. now rewrite Hg. Qed.

Lemma get_snoc_fresh o k v :
  JSObject.get o k = None -> JSObject.get (o ++ [(k, v)]) k = Some v.
Proof.
  induction o as [|[k' x] o IH]; cbn.
  - now rewrite eqb_refl.
  - destruct (JSString.eqb k' k); [discriminate|exact IH].
Qed.

Lemma replace_snoc_fresh o k v w :
  JSObject.get o k = None ->
  JSObject.replace (o ++ [(k, v)]) k w = o ++ [(k, w)].
Proof.
  induction o as [|[k' x] o IH]; cbn.
  - now rewrite eqb_refl.
  - destruct (JSString.eqb k' k); [discriminate|].
    intros H. now rewrite IH.
Qed.

Lemma get_replace o k v k' :
  JSObject.get (JSObject.replace o k v) k'
  = if JSString.eqb k k'
    then match JSObject.get o k with Some _ => Some v | None => None end
    else JSObject.get o k'.
Proof.
  induction o as [|[k0 x] o IH]; cbn.
  - now destruct (JSString.eqb k k').
  - destruct (JSString.eqb k0 k) eqn:E0; cbn.
    + apply eqb_eq in E0 as ->. now destruct (JSString.eqb k k').
    + rewrite IH. destruct (JSString.eqb k k') eqn:E; [|reflexivity].
      apply eqb_eq in E as <-. now rewrite E0.
Qed.

Lemma get_insert_index o i k v k' :
  JSObject.get o k = None ->
  JSObject.get (JSObject.insert_index o i k v) k'
  = if JSString.eqb k k' then Some v else JSObject.get o k'.
Proof.
  induction o as [|[k0 x] o IH]; cbn; [reflexivity|].
  destruct (JSString.eqb k0 k) eqn:E0; [discriminate|]. intros Hg.
  destruct (JSString.array_index k0) as [j|]; [destruct (j <? i)|];
    cbn; try reflexivity.
  rewrite IH by exact Hg.
  destruct (JSString.eqb k k') eqn:E; [|reflexivity].
  apply eqb_eq in E as <-. now rewrite E0.
Qed.

Lemma get_snoc o k v k' :
  JSObject.get o k = None ->
  JSObject.get (o ++ [(k, v)]) k'
  = if JSString.eqb k k' then Some v else JSObject.get o k'.
Proof.
  induction o as [|[k0 x] o IH]; cbn.
  - now destruct (JSString.eqb k k').
  - destruct (JSString.eqb k0 k) eqn:E0; [discriminate|]. intros Hg.
    rewrite IH by exact Hg.
    destruct (JSString.eqb k k') eqn:E; [|reflexivity].
    apply eqb_eq in E as <-. now rewrite E0.
Qed.

(** Reading a property after an assignment. *)
Lemma get_set o k v k' :
  JSObject.get (JSObject.set o k v) k'
  = if JSString.eqb k k' then Some v else JSObject.get o k'.
Proof.
  unfold JSObject.set. destruct (JSObject.get o k) eqn:Hg.
  - rewrite get_replace, Hg. reflexivity.
  - destruct (JSString.array_index k).
    + now apply get_insert_index.
    + now apply get_snoc.
Qed.


End ObjectFacts.

(** ** Grouping by (type, category) *)

Section GroupFacts.
Import LedgerView Spec.

Lemma group_key_pair t : group_key t = key_of_pair (pair_of t).
Proof. reflexivity. Qed.

Lemma key_of_pair_inj p q : key_of_pair p = key_of_pair q -> p = q.
Proof.
  destruct p as [[] c], q as [[] c']; cbn; intros H;
    try discriminate; now inversion H.
Qed.

Lemma key_not_array_index p : JSString.array_index (key_of_pair p) = None.
Proof. destruct p as [[] c]; reflexivity. Qed.

Lemma eqb_key p q : JSString.eqb (key_of_pair p) (key_of_pair q) = bool_decide (p = q).
Proof.
  unfold JSString.eqb. apply bool_decide_ext. split; [apply key_of_pair_inj|].
  now intros ->.
Qed.

Lemma get_entries {V} (g : TransactionType * jsstring -> V) gs q :
  JSObject.get (entries g gs) (key_of_pair q)
  = if decide (q ∈ gs) then Some (g q) else None.
Proof.
  induction gs as [|p gs IH]; cbn [entries map JSObject.get].
  - rewrite decide_False; [reflexivity|]. apply not_elem_of_nil.
  - rewrite eqb_key. fold (entries g gs). rewrite IH.
    destruct (decide (p = q)) as [->|Hne].
    + rewrite bool_decide_eq_true_2 by reflexivity.
      rewrite decide_True; [reflexivity|]. left.
    + rewrite bool_decide_eq_false_2 by exact Hne.
      destruct (decide (q ∈ gs)) as [Hin|Hnin].
      * rewrite decide_True; [reflexivity|]. now right.
      * rewrite decide_False; [reflexivity|].
        intros [Heq|Hin]%elem_of_cons; [now subst|contradiction].
Qed.

Lemma replace_entries {V} (g : TransactionType * jsstring -> V) gs q v :
  NoDup gs ->
  JSObject.replace (entries g gs) (key_of_pair q) v
  = entries (fun p => if decide (p = q) then v else g p) gs.
Proof.
  induction 1 as [|p gs Hp Hnd IH]; cbn [entries map JSObject.replace];
    [reflexivity|].
  rewrite eqb_key. destruct (decide (p = q)) as [->|Hne].
  - rewrite bool_decide_eq_true_2 by reflexivity. f_equal.
    apply map_ext_in. intros p Hin. rewrite decide_False; [reflexivity|].
    intros ->. apply Hp. now apply list_elem_of_In.
  - rewrite bool_decide_eq_false_2 by exact Hne. f_equal. exact IH.
Qed.

Lemma distinct_elem {A} `{EqDecision A} (l : list A) x :
  x ∈ distinct l <-> x ∈ l.
Proof.
  induction l as [|y l IH]; cbn [distinct]; [reflexivity|].
  rewrite !elem_of_cons, list_elem_of_filter, IH.
  destruct (decide (x = y)); intuition.
Qed.

Lemma distinct_NoDup {A} `{EqDecision A} (l : list A) : NoDup (distinct l).
Proof.
  induction l as [|y l IH]; cbn [distinct]; constructor.
  - rewrite list_elem_of_filter. intros [Hne _]. now apply Hne.
  - now apply NoDup_filter.
Qed.

Lemma distinct_snoc {A} `{EqDecision A} (l : list A) x :
  distinct (l ++ [x]) = if decide (x ∈ l) then distinct l else distinct l ++ [x].
Proof.
  induction l as [|y l IH]; cbn [distinct app].
  - rewrite decide_False by apply not_elem_of_nil. reflexivity.
  - rewrite IH. destruct (decide (x = y)) as [->|Hne].
    + rewrite (decide_True (P := y ∈ y :: l)) by left.
      destruct (decide (y ∈ l)); [reflexivity|].
      rewrite filter_app, filter_cons, decide_False by tauto.
      cbn. now rewrite app_nil_r.
    + destruct (decide (x ∈ l)) as [Hin|Hnin].
      * rewrite decide_True by now right. reflexivity.
      * rewrite decide_False
          by (intros [?|?]%elem_of_cons; [contradiction|contradiction]).
        rewrite filter_app, filter_cons, decide_True by exact Hne.
        reflexivity.
Qed.

Lemma group_sum_snoc p l t :
  group_sum p (l ++ [t])
  = if decide (pair_of t = p) then Number.add (group_sum p l) (amount t)
    else group_sum p l.
Proof.
  unfold group_sum, sum. rewrite filter_app, filter_cons, filter_nil.
  destruct (decide (pair_of t = p)).
  - now rewrite map_app, fold_left_app.
  - now rewrite app_nil_r.
Qed.

Lemma group_sum_absent p l : p ∉ map pair_of l -> group_sum p l = Number.zero.
Proof.
  intros Hn. unfold group_sum. replace (filter _ l) with (@nil Transaction);
    [reflexivity|].
  symmetry. induction l as [|t l IH]; [reflexivity|].
  cbn [map] in Hn. apply not_elem_of_cons in Hn as [Hne Hn].
  rewrite filter_cons, decide_False by congruence. now apply IH.
Qed.

(** [categoryMap] after the loop over the day's transactions. *)
Lemma categoryMap_entries day :
  fold_left add_to_group day []
  = entries (group_entry day) (distinct (map pair_of day)).
Proof.
  induction day as [|t day IH] using rev_ind; [reflexivity|].
  rewrite fold_left_app. cbn [fold_left]. rewrite IH, map_app. cbn [map].
  rewrite distinct_snoc. unfold add_to_group.
  rewrite group_key_pair, !get_entries.
  set (q := pair_of t). set (gs := distinct (map pair_of day)).
  assert (Hext : forall gs',
    (forall p, p ∈ gs' -> p ∈ gs) ->
    entries (fun p => if decide (p = q) then
        {| group_value := Number.add (group_sum q day) (amount t);
           group_type := fst q |} else group_entry day p) gs'
    = entries (group_entry (day ++ [t])) gs').
  { intros gs' _. apply map_ext. intros p. f_equal.
    unfold group_entry. rewrite group_sum_snoc. fold q.
    destruct (decide (p = q)) as [->|Hne].
    - now rewrite decide_True.
    - rewrite decide_False by congruence. reflexivity. }
  destruct (decide (q ∈ gs)) as [Hin|Hnin].
  - rewrite (decide_True (P := q ∈ map pair_of day))
      by exact (proj1 (distinct_elem _ _) Hin).
    rewrite get_entries, decide_True by exact Hin.
    unfold JSObject.set. rewrite get_entries, decide_True by exact Hin.
    rewrite replace_entries by apply distinct_NoDup.
    cbn [group_entry group_value group_type]. now apply Hext.
  - rewrite (decide_False (P := q ∈ map pair_of day))
      by (intros H; apply Hnin; exact (proj2 (distinct_elem _ _) H)).
    assert (Hfresh : JSObject.get (entries (group_entry day) gs) (key_of_pair q)
                     = None)
      by (rewrite get_entries; now rewrite decide_False).
    rewrite (set_fresh _ _ _ Hfresh (key_not_array_index q)).
    rewrite get_snoc_fresh by exact Hfresh.
    rewrite (set_present _ _ _ _ (get_snoc_fresh _ _ _ Hfresh)).
    rewrite replace_snoc_fresh by exact Hfresh.
    cbn [group_value group_type].
    unfold entries. rewrite map_app. cbn [map]. f_equal.
    + apply map_ext_in. intros p Hp. f_equal. unfold group_entry.
      rewrite group_sum_snoc. fold q. rewrite decide_False; [reflexivity|].
      intros Heq. apply Hnin. rewrite Heq. now apply list_elem_of_In.
    + unfold group_entry. rewrite group_sum_snoc. fold q.
      rewrite decide_True by reflexivity.
      rewrite group_sum_absent; [reflexivity|].
      intros H. apply Hnin. now apply distinct_elem.
Qed.

Lemma split_head c : nth_error (split 45 c) 0 = Some (before_hyphen c).
Proof.
  induction c as [|x c IH]; cbn [split before_hyphen]; [reflexivity|].
  destruct (x =? 45); [reflexivity|].
  destruct (split 45 c) as [|seg segs]; [discriminate|].
  cbn in *. congruence.
Qed.

(** [key.split('-')[1]] *)
Lemma split_group_key p :
  nth_error (split 45 (key_of_pair p)) 1 = Some (before_hyphen (snd p)).
Proof.
  destruct p as [ty c]. cbn [snd]. rewrite <- split_head.
  unfold key_of_pair. cbn [fst snd].
  destruct ty; cbn; destruct (split 45 c); reflexivity.
Qed.

Lemma rank_here pre p rest ty :
  rank (pre ++ p :: rest) (length pre) ty
  = length (filter (fun q => fst q = ty) pre).
Proof. unfold rank. now rewrite take_app_length. Qed.

Lemma rank_next pre p rest ty :
  rank (pre ++ p :: rest) (S (length pre)) ty
  = if decide (fst p = ty) then S (rank (pre ++ p :: rest) (length pre) ty)
    else rank (pre ++ p :: rest) (length pre) ty.
Proof.
  rewrite rank_here. unfold rank.
  replace (S (length pre)) with (length (pre ++ [p]))
    by (rewrite length_app; cbn; lia).
  rewrite (cons_middle p pre rest), app_assoc, take_app_length.
  rewrite filter_app, filter_cons, filter_nil, length_app.
  destruct (decide (fst p = ty)); cbn; lia.
Qed.

(** The counters of [assign_colors] count the groups of each type seen so
    far. *)
Lemma assign_colors_entries day rest : forall pre,
  let gs := pre ++ rest in
  assign_colors (rank gs (length pre) Income) (rank gs (length pre) Expense)
    (entries (group_entry day) rest)
  = imap (fun i => slice_of gs day (length pre + i)) rest.
Proof.
  induction rest as [|p rest IH]; intros pre gs; [reflexivity|].
  cbn [entries map assign_colors imap]. fold (entries (group_entry day) rest).
  rewrite split_group_key. cbn [group_entry group_type group_value].
  specialize (IH (pre ++ [p])). cbn zeta in IH.
  rewrite <- app_assoc in IH. cbn [app] in IH. fold gs in IH.
  replace (length (pre ++ [p])) with (S (length pre)) in IH
    by (rewrite length_app; cbn; lia).
  assert (Himap : imap (fun i => slice_of gs day (S (length pre) + i)) rest
                  = imap ((fun i => slice_of gs day (length pre + i)) ∘ S) rest).
  { apply imap_ext. intros i x _. cbn. f_equal. lia. }
  rewrite Himap in IH. subst gs.
  rewrite !rank_next in IH.
  unfold slice_of at 1. rewrite Nat.add_0_r.
  destruct p as [[] c]; cbn [fst snd palette] in *.
  - rewrite decide_True in IH by reflexivity.
    rewrite decide_False in IH by discriminate.
    f_equal. exact IH.
  - rewrite decide_False in IH by discriminate.
    rewrite decide_True in IH by reflexivity.
    f_equal. exact IH.
Qed.

(** [pieData] before it is sorted. *)
Lemma assign_colors_breakdown day :
  assign_colors 0 0 (fold_left add_to_group day []) = breakdown day.
Proof.
  rewrite categoryMap_entries. unfold breakdown.
  exact (assign_colors_entries day (distinct (map pair_of day)) []).
Qed.


End GroupFacts.

(** ** [dailyStats] *)

Section DailyStatsFacts.
Import LedgerView Spec.

Lemma dailyStats_eq ts d :
  dailyStats ts d
  = {| day_income := sum (amounts_of Income (day_of ts d));
       day_expense := sum (amounts_of Expense (day_of ts d));
       totalVolume := Number.add (sum (amounts_of Income (day_of ts d)))
                                 (sum (amounts_of Expense (day_of ts d)));
       pieData := Array_sort by_value_desc (breakdown (day_of ts d));
       dayTransactions := day_of ts d |}.
Proof.
  unfold dailyStats. fold (day_of ts d).
  rewrite tally_fold, assign_colors_breakdown. reflexivity.
Qed.

Lemma after_by_time a b :
  after by_time_desc a b = true <-> (timestamp a < timestamp b)%Z.
Proof.
  unfold after, by_time_desc, Number.of_Z, Number.ltb, Number.zero.
  rewrite negb_true_iff, <- not_true_iff_false, Qle_bool_iff.
  unfold Qle. cbn. lia.
Qed.





Lemma groups_elem day p :
  p ∈ distinct (map pair_of day) <-> exists t, t ∈ day /\ pair_of t = p.
Proof.
  rewrite distinct_elem, list_elem_of_fmap. split; intros (t & H1 & H2); eauto.
Qed.



Lemma before_hyphen_split c :
  45 ∈ c -> exists rest, c = before_hyphen c ++ 45 :: rest.
Proof.
  induction c as [|x c IH]; [intros H; now apply not_elem_of_nil in H|].
  cbn [before_hyphen]. destruct (N.eqb_spec x 45) as [->|Hne].
  - intros _. now exists c.
  - intros [Heq|Hin]%elem_of_cons; [congruence|].
    destruct (IH Hin) as [rest Hrest]. exists rest. cbn. now f_equal.
Qed.

Lemma before_hyphen_no_hyphen c : 45 ∉ before_hyphen c.
Proof.
  induction c as [|x c IH]; cbn [before_hyphen]; [apply not_elem_of_nil|].
  destruct (N.eqb_spec x 45) as [->|Hne]; [apply not_elem_of_nil|].
  intros [Heq|Hin]%elem_of_cons; [congruence|contradiction].
Qed.

Lemma before_hyphen_id c : before_hyphen c = c <-> 45 ∉ c.
Proof.
  split.
  - intros <-. apply before_hyphen_no_hyphen.
  - induction c as [|x c IH]; [reflexivity|].
    intros [Hne Hnin]%not_elem_of_cons. cbn [before_hyphen].
    destruct (N.eqb_spec x 45); [congruence|]. f_equal. auto.
Qed.

(** C10.  The name of a breakdown entry is the second segment of the key
    [type-category] split at hyphens: for each of the day's transactions
    there is an entry of its type whose name is the category up to its first
    hyphen, every entry arises so, and that prefix is the whole category
    exactly when the category has no hyphen. *)
Theorem breakdown_name_before_hyphen ts d :
  let r := dailyStats ts d in
  (forall t, t ∈ dayTransactions r ->
     nth_error (split 45 (group_key t)) 1 = Some (before_hyphen (category t))
     /\ exists s, s ∈ pieData r /\ slice_type s = type t
                  /\ value s = group_sum (pair_of t) (dayTransactions r)
                  /\ name s = Some (before_hyphen (category t)))
  /\ (forall s, s ∈ pieData r ->
        exists t, t ∈ dayTransactions r /\ slice_type s = type t
                  /\ value s = group_sum (pair_of t) (dayTransactions r)
                  /\ name s = Some (before_hyphen (category t)))
  /\ (forall c, 45 ∈ c ->
        exists rest, c = before_hyphen c ++ 45 :: rest
                     /\ 45 ∉ before_hyphen c)
  /\ (forall c, before_hyphen c = c <-> 45 ∉ c).
Proof.
  cbn zeta. rewrite dailyStats_eq. cbn [dayTransactions pieData].
  set (day := day_of ts d). split; [|split; [|split]].
  - intros t Ht. split; [rewrite group_key_pair; apply split_group_key|].
    assert (Hp : pair_of t ∈ distinct (map pair_of day))
      by (apply groups_elem; eauto).
    apply list_elem_of_lookup in Hp as [i Hi].
    exists (slice_of (distinct (map pair_of day)) day i (pair_of t)).
    split; [|repeat split; reflexivity].
    rewrite Array_sort_perm. apply elem_of_lookup_imap. eauto.
  - intros s H. rewrite Array_sort_perm in H.
    apply elem_of_lookup_imap in H as (i & p & -> & Hi).
    apply list_elem_of_lookup_2, groups_elem in Hi as (t & Ht & <-).
    exists t. repeat split; auto.
  - intros c H. destruct (before_hyphen_split c H) as [rest Hrest].
    exists rest. split; [exact Hrest|apply before_hyphen_no_hyphen].
  - apply before_hyphen_id.
Qed.

Lemma breakdown_name_example :
  let ts := [sample (str "food-out")] in
  let r := dailyStats ts (str "2024-01-01") in
  sample (str "food-out") ∈ dayTransactions r
  /\ exists s, s ∈ pieData r /\ slice_type s = Expense
               /\ value s = Number.of_Z 1
               /\ name s = Some (str "food").
Proof.
  cbn zeta.
  assert (H : sample (str "food-out")
              ∈ dayTransactions
                  (dailyStats [sample (str "food-out")] (str "2024-01-01")))
    by (vm_compute; left).
  split; [exact H|].
  exact (proj2 (proj1 (breakdown_name_before_hyphen _ _) _ H)).
Defined.

End DailyStatsFacts.

(** * Properties of the persistence store *)

Section StoreFacts.
Import storageService Spec.

Lemma parse_empty : JSON.parse [] = None.
Proof. reflexivity. Qed.

Lemma parse_or_empty_stored ls key :
  try_catch (parse_or_empty (getItem ls key)) (fun _ => Ret (JArr []))
  = Ret (default (JArr []) (stored ls key)).
Proof.
  unfold parse_or_empty, getItem, stored, JSON_parse.
  destruct (ls !! key) as [[|c text]|]; try reflexivity.
  destruct (JSON.parse (c :: text)); reflexivity.
Qed.

(** C4.  Each getter returns a value and never throws: the parsed document
    when the key holds a text that parses, and otherwise (key absent, or
    text that does not parse) the empty array, or the default settings for
    [getSettings]. *)
Theorem get_never_throws ls :
  getNotes ls = Ret (default (JArr []) (stored ls NOTES))
  /\ getTransactions ls = Ret (default (JArr []) (stored ls TRANSACTIONS))
  /\ getSettings ls = Ret (default (JObj default_settings) (stored ls SETTINGS)).
Proof.
  split; [apply parse_or_empty_stored|]. split; [apply parse_or_empty_stored|].
  unfold getSettings, getItem, stored, JSON_parse.
  destruct (ls !! SETTINGS) as [[|c text]|]; try reflexivity.
  destruct (JSON.parse (c :: text)); reflexivity.
Qed.

(** C1.  With only [headerQuote] stored, [getSettings] returns the stored
    document as it is: the two category fields are missing, not defaulted. *)
Theorem getSettings_partial_document :
  let ls : storage := {[ SETTINGS := json_text "{'headerQuote':'x'}" ]} in
  let partial := [(str "headerQuote", JStr (str "x"))] in
  getSettings ls = Ret (JObj partial)
  /\ JSObject.get partial (str "noteCategories") = None
  /\ JSObject.get partial (str "ledgerCategories") = None.
Proof. vm_compute. auto. Qed.

(** C5.  With a notes text that does not parse, [exportData] throws the
    SyntaxError of [JSON.parse] to its caller. *)
Theorem exportData_corrupt_notes_throws now :
  let ls : storage := {[ NOTES := json_text "{" ]} in
  JSON.parse (json_text "{") = None
  /\ exportData now ls = Throw SyntaxError.
Proof. vm_compute. auto. Qed.

(** In the same function a settings text that does not parse is recovered:
    the export carries the default settings. *)
Example exportData_recovers_corrupt_settings now :
  let ls : storage := {[ SETTINGS := json_text "{" ]} in
  exportData now ls
  = Ret (JSON.stringify_pretty
           (JObj [(str "notes", JArr []);
                  (str "transactions", JArr []);
                  (str "settings", JObj default_settings);
                  (str "exportDate", JStr now);
                  (str "version", JStr (str "1.0"))])).
Proof. reflexivity. Qed.

(** The whole effect of [importData], by cases on the text. *)
Lemma importData_eq text ls :
  importData text ls
  = match JSON.parse text with
    | None => (false, ls)
    | Some data =>
        let notes := field data (str "notes") in
        let transactions := field data (str "transactions") in
        let settings := field data (str "settings") in
        if JSValue.isArray notes || JSValue.isArray transactions then
          (true,
           overwrite_if_truthy SETTINGS settings
             (fun x => JSON.stringify
                         (JObj (JSValue.spread default_settings (Some x))))
             (overwrite_if_truthy TRANSACTIONS transactions JSON.stringify
                (overwrite_if_truthy NOTES notes JSON.stringify ls)))
        else (false, ls)
    end.
Proof.
  unfold importData, catch, importData_body, bind, lift, JSON_parse.
  destruct (JSON.parse text) as [data|]; [|reflexivity].
  destruct data as [|b|n|s|l|o]; try reflexivity.
  cbn [get_prop field]. cbn zeta.
  destruct (JSObject.get o (str "notes")) as [vn|] eqn:Hn;
  destruct (JSObject.get o (str "transactions")) as [vt|] eqn:Ht;
  destruct (JSObject.get o (str "settings")) as [vs|] eqn:Hs;
  unfold overwrite_if_truthy, when, write, ret, throw, setItem;
  try destruct vn; try destruct vt; try destruct vs;
  cbn [JSValue.isArray JSValue.truthy negb andb orb default];
  repeat match goal with
         | |- context [if ?b then _ else _] => destruct b
         end; reflexivity.
Qed.




(** The specification's merge example: a document whose settings have only
    [headerQuote] is stored with the default category arrays. *)
Example importData_merges_settings :
  let text := json_text "{'notes':[],'settings':{'headerQuote':'x'}}" in
  stored (snd (importData text ∅)) SETTINGS
  = Some (JObj [(str "headerQuote", JStr (str "x"));
                (str "noteCategories", JArr (map JStr DEFAULT_NOTE_CATEGORIES));
                (str "ledgerCategories",
                 JArr (map JStr DEFAULT_LEDGER_CATEGORIES))]).
Proof. vm_compute. reflexivity. Qed.

End StoreFacts.

(** * Properties of the save handler *)

Section HandleSaveFacts.
Import LedgerView.

Lemma handleSave_rejected uuid now v :
  rejected v ->
  transactions (handleSave uuid now v) = transactions v
  /\ alerts (handleSave uuid now v) = alerts v ++ [INVALID_AMOUNT].
Proof.
  unfold rejected, handleSave. intros [H|H].
  - rewrite H. cbn. auto.
  - rewrite H, orb_true_r. cbn. auto.
Qed.

Lemma not_leb_zero x :
  Number.leb x Number.zero = false ->
  x = Number.NaN \/ Number.ltb Number.zero x = true.
Proof.
  destruct x as [| |q|]; cbn; auto; try discriminate.
  intros H. right. now rewrite H.
Qed.

(** What the guard of [handleSave] lets through: a positive amount or NaN. *)
Lemma handleSave_accepted uuid now v :
  ~ rejected v ->
  (parseFloat (form_amount v) = Number.NaN
   \/ Number.ltb Number.zero (parseFloat (form_amount v)) = true)
  /\ alerts (handleSave uuid now v) = alerts v
  /\ forall t, t ∈ transactions (handleSave uuid now v) ->
       t ∈ transactions v \/ amount t = parseFloat (form_amount v).
Proof.
  unfold rejected, handleSave. intros Hn.
  destruct (form_amount v) as [|c a] eqn:Ha; [tauto|].
  destruct (Number.leb (parseFloat (c :: a)) Number.zero) eqn:Hle; [tauto|].
  cbn [orb]. split; [now apply not_leb_zero|]. split; [reflexivity|].
  cbn [transactions]. intros t Ht.
  destruct (editingId v) as [[|e i]|].
  - apply elem_of_cons in Ht as [->|Ht]; auto.
  - apply list_elem_of_fmap in Ht as (t0 & -> & Ht0).
    destruct (JSString.eqb (id t0) (e :: i)); auto.
  - apply elem_of_cons in Ht as [->|Ht]; auto.
Qed.


End HandleSaveFacts.

(** * [JSON.parse] inverts [JSON.stringify] *)

Section DigitFacts.
Import JSString.

Lemma span_digits_app ds rest :
  digits_only ds ->
  match rest with [] => True | c :: _ => is_digit c = false end ->
  span_digits (ds ++ rest) = (ds, rest).
Proof.
  intros Hds Hrest. induction Hds as [|c ds Hc Hds IH]; cbn.
  - destruct rest as [|c rest]; [reflexivity|]. cbn. now rewrite Hrest.
  - now rewrite Hc, IH.
Qed.

Lemma chars_of_uint_digits u : digits_only (chars_of_uint u).
Proof. induction u; cbn; constructor; auto. Qed.

Lemma uint_of_chars_of_uint u : uint_of_chars (chars_of_uint u) = u.
Proof. induction u; cbn; congruence. Qed.

Lemma to_N_of_N n : to_N (of_N n) = n.
Proof.
  unfold to_N, of_N. rewrite uint_of_chars_of_uint.
  apply DecimalN.Unsigned.of_to.
Qed.

Lemma of_N_nonempty n : of_N n <> [].
Proof.
  unfold of_N. destruct n as [|p]; [discriminate|].
  cbn. assert (H := DecimalPos.Unsigned.to_uint_nonnil p).
  destruct (Pos.to_uint p); [congruence|..]; discriminate.
Qed.

Lemma drop_zeros_nonzero c s : c <> 48 -> drop_zeros (c :: s) = c :: s.
Proof. intros H. cbn. now destruct (N.eqb_spec c 48). Qed.

Lemma drop_zeros_repeat n s : drop_zeros (repeat 48 n ++ s) = drop_zeros s.
Proof. induction n; cbn; auto. Qed.

Lemma delimited_no_digit rest :
  delimited rest -> match rest with [] => True | c :: _ => is_digit c = false end.
Proof. destruct rest as [|c rest]; cbn; [auto|]. intros [->|[->|[->| ->]]]; reflexivity. Qed.

End DigitFacts.

Section NumeralFacts.
Import JSString.

Lemma drop_zeros_length s : (length (drop_zeros s) <= length s)%nat.
Proof. induction s as [|c s IH]; cbn; [lia|]. destruct (c =? 48); cbn; lia. Qed.

Lemma drop_zeros_id_head d ds : drop_zeros (d :: ds) = d :: ds -> d <> 48.
Proof.
  intros H ->. cbn in H. assert (Hl := drop_zeros_length ds).
  rewrite H in Hl. cbn in Hl. lia.
Qed.

Lemma rev_zeros m : rev (repeat 48 m) = repeat 48 m.
Proof.
  induction m as [|m IH]; [reflexivity|].
  cbn [repeat rev]. rewrite IH. symmetry. apply repeat_cons.
Qed.

Lemma of_parts_canonical sg ip fp e ds z m :
  ip ++ fp = repeat 48 z ++ ds ++ repeat 48 m ->
  ds <> [] -> drop_zeros ds = ds -> drop_zeros (rev ds) = rev ds ->
  Numeral.of_parts sg ip fp e
  = Numeral.Make sg ds (Z.of_nat (length ip) + e - Z.of_nat z).
Proof.
  intros Hall Hne Hhead Hlast. unfold Numeral.of_parts. rewrite Hall.
  destruct ds as [|d ds]; [congruence|].
  assert (Hd := drop_zeros_id_head _ _ Hhead).
  rewrite drop_zeros_repeat.
  change ((d :: ds) ++ repeat 48 m) with (d :: (ds ++ repeat 48 m)).
  rewrite drop_zeros_nonzero by exact Hd.
  change (d :: (ds ++ repeat 48 m)) with ((d :: ds) ++ repeat 48 m).
  rewrite rev_app_distr, rev_zeros, drop_zeros_repeat, Hlast, rev_involutive.
  f_equal. rewrite !length_app, repeat_length. lia.
Qed.

Lemma parse_after_number rest :
  delimited rest ->
  JSON.parse_fraction rest = Some ([], rest)
  /\ JSON.parse_exponent rest = Some (0%Z, rest).
Proof.
  destruct rest as [|c rest]; cbn; [auto|].
  intros [->|[->|[->| ->]]]; auto.
Qed.

Lemma parse_digits1_app ds rest :
  ds <> [] -> digits_only ds ->
  match rest with [] => True | c :: _ => is_digit c = false end ->
  JSON.parse_digits1 (ds ++ rest) = Some (ds, rest).
Proof.
  intros Hne Hds Hrest. unfold JSON.parse_digits1.
  rewrite span_digits_app by assumption. now destruct ds.
Qed.

Lemma digits_only_app a b : digits_only a -> digits_only b -> digits_only (a ++ b).
Proof. apply Forall_app_2. Qed.

Lemma digits_only_zeros m : digits_only (repeat 48 m).
Proof. induction m; cbn; constructor; auto. Qed.

Lemma parse_int_part_nonzero d ds rest :
  d <> 48 -> digits_only (d :: ds) ->
  match rest with [] => True | c :: _ => is_digit c = false end ->
  JSON.parse_int_part ((d :: ds) ++ rest) = Some (d :: ds, rest).
Proof.
  intros Hd Hds Hrest. cbn [app JSON.parse_int_part].
  destruct (N.eqb_spec d 48); [contradiction|].
  now apply (parse_digits1_app (d :: ds)).
Qed.

Lemma parse_exponent_printed n rest :
  delimited rest ->
  JSON.parse_exponent
    (101 :: (if (n <? 0)%Z then 45 else 43)
     :: of_N (Z.to_N (Z.abs n)) ++ rest)
  = Some (n, rest).
Proof.
  intros Hrest. cbn [JSON.parse_exponent]. cbn [N.eqb Pos.eqb orb].
  assert (Hd : JSON.parse_digits1 (of_N (Z.to_N (Z.abs n)) ++ rest)
               = Some (of_N (Z.to_N (Z.abs n)), rest)).
  { apply parse_digits1_app; [apply of_N_nonempty|apply chars_of_uint_digits|].
    now apply delimited_no_digit. }
  destruct (Z.ltb_spec n 0).
  - cbn [N.eqb Pos.eqb]. rewrite Hd, to_N_of_N. do 2 f_equal. lia.
  - cbn [N.eqb Pos.eqb]. rewrite Hd, to_N_of_N. do 2 f_equal. lia.
Qed.

(** Reading back the digits that [Number::toString] lays out. *)
Lemma parse_magnitude sg ds n rest :
  ds <> [] -> digits_only ds ->
  drop_zeros ds = ds -> drop_zeros (rev ds) = rev ds ->
  delimited rest ->
  JSON.parse_unsigned sg (Numeral.magnitude ds n ++ rest)
  = JSON.Parsed (Numeral.Make sg ds n) rest.
Proof.
  intros Hne Hds Hhead Hlast Hrest.
  destruct (parse_after_number rest Hrest) as [Hfrac Hexp].
  assert (Hnd := delimited_no_digit rest Hrest).
  destruct ds as [|d ds']; [congruence|].
  assert (Hd := drop_zeros_id_head _ _ Hhead).
  unfold Numeral.magnitude, JSON.parse_unsigned.
  set (ds := d :: ds') in *. set (k := Z.of_nat (length ds)).
  destruct ((k <=? n)%Z && (n <=? 21)%Z) eqn:Ha.
  { apply andb_true_iff in Ha as [Hkn _]. apply Z.leb_le in Hkn.
    subst ds.
    change (((d :: ds') ++ ?z) ++ rest) with ((d :: (ds' ++ z)) ++ rest).
    rewrite (parse_int_part_nonzero d (ds' ++ repeat 48 (Z.to_nat (n - k))) rest)
      by (auto; apply (digits_only_app (d :: ds')); auto using digits_only_zeros).
    rewrite Hfrac, Hexp. f_equal.
    rewrite (of_parts_canonical sg _ [] 0 (d :: ds') 0 (Z.to_nat (n - k)))
      by (auto; now rewrite app_nil_r).
    f_equal. cbn [length]. rewrite length_app, repeat_length.
    subst k. cbn [length] in *. lia. }
  destruct ((0 <? n)%Z && (n <=? 21)%Z) eqn:Hb.
  { apply andb_true_iff in Hb as [H0n Hn21].
    apply Z.ltb_lt in H0n. apply Z.leb_le in Hn21.
    assert (Hnk : (n < k)%Z).
    { apply andb_false_iff in Ha as [Ha|Ha]; apply Z.leb_gt in Ha; lia. }
    clear Ha.
    assert (Hn' : (0 < Z.to_nat n < length ds)%nat) by (subst k; lia).
    assert (Htake : take (Z.to_nat n) ds = d :: take (Z.to_nat n - 1) ds').
    { subst ds. destruct (Z.to_nat n) as [|j]; [lia|].
      cbn. now rewrite Nat.sub_0_r. }
    rewrite <- app_assoc. rewrite Htake at 1.
    rewrite (parse_int_part_nonzero d _ (46 :: drop (Z.to_nat n) ds ++ rest));
      [|exact Hd|rewrite <- Htake; now apply Forall_take|reflexivity].
    cbn [JSON.parse_fraction N.eqb Pos.eqb].
    rewrite parse_digits1_app;
      [|intros H; apply (f_equal length) in H; rewrite length_drop in H;
        change (@length N []) with 0%nat in H; lia
       |now apply Forall_drop|exact Hnd].
    rewrite Hexp. f_equal. rewrite <- Htake.
    rewrite (of_parts_canonical sg _ _ 0 ds 0 0);
      [|cbn; now rewrite take_drop, app_nil_r|exact Hne|exact Hhead|exact Hlast].
    f_equal. rewrite length_take. lia. }
  destruct ((-6 <? n)%Z && (n <=? 0)%Z) eqn:Hc.
  { apply andb_true_iff in Hc as [_ Hn0]. apply Z.leb_le in Hn0.
    cbn [app JSON.parse_int_part N.eqb Pos.eqb JSON.parse_fraction].
    rewrite <- app_assoc.
    rewrite (app_assoc (repeat 48 (Z.to_nat (- n))) ds rest).
    rewrite parse_digits1_app;
      [|destruct (repeat 48 (Z.to_nat (- n))); discriminate
       |apply digits_only_app; auto using digits_only_zeros|exact Hnd].
    rewrite Hexp. f_equal.
    rewrite (of_parts_canonical sg _ _ 0 ds (S (Z.to_nat (- n))) 0);
      [|cbn; now rewrite app_nil_r|exact Hne|exact Hhead|exact Hlast].
    f_equal. cbn [length]. lia. }
  subst ds. clear Ha Hb Hc.
  change (take 1 (d :: ds')) with [d]. change (drop 1 (d :: ds')) with ds'.
  assert (Hint : forall X, match X with [] => True | c :: _ => is_digit c = false end ->
            JSON.parse_int_part (d :: X) = Some ([d], X)).
  { intros X HX. apply (parse_int_part_nonzero d [] X); auto.
    apply Forall_cons in Hds as [Hd' _]. now constructor. }
  destruct ds' as [|f fs].
  - cbn [app]. rewrite Hint by reflexivity.
    cbn [JSON.parse_fraction N.eqb Pos.eqb].
    rewrite parse_exponent_printed by exact Hrest. f_equal.
    rewrite (of_parts_canonical sg _ _ _ [d] 0 0);
      [|reflexivity|discriminate|exact Hhead|exact Hlast].
    f_equal. cbn [length]. lia.
  - cbn [app]. rewrite Hint by reflexivity.
    cbn [JSON.parse_fraction N.eqb Pos.eqb]. rewrite <- app_assoc. cbn [app].
    change (f :: fs ++ 101 :: ?r) with ((f :: fs) ++ 101 :: r).
    rewrite parse_digits1_app;
      [|discriminate|now apply Forall_cons in Hds as [_ Hds]|reflexivity].
    rewrite parse_exponent_printed by exact Hrest. f_equal.
    rewrite (of_parts_canonical sg _ _ _ (d :: f :: fs) 0 0);
      [|cbn; now rewrite app_nil_r|discriminate|exact Hhead|exact Hlast].
    f_equal. cbn [length]. lia.
Qed.

(** [JSON.parse] reads a printed number back. *)
Lemma parse_number_printed x rest :
  numeral_wf x -> delimited rest ->
  JSON.parse_number (Numeral.to_string x ++ rest) = JSON.Parsed x rest.
Proof.
  intros (Hds & Hhead & Hlast & Hzero) Hrest.
  destruct (parse_after_number rest Hrest) as [Hfrac Hexp].
  destruct x as [sg ds n]. cbn [Numeral.digits Numeral.neg Numeral.point] in *.
  unfold Numeral.to_string. cbn [Numeral.digits Numeral.neg Numeral.point].
  destruct ds as [|d ds'].
  - destruct (Hzero eq_refl) as [-> ->].
    cbn [app JSON.parse_number N.eqb Pos.eqb].
    unfold JSON.parse_unsigned. cbn [JSON.parse_int_part N.eqb Pos.eqb].
    rewrite Hfrac, Hexp. reflexivity.
  - assert (Hd := drop_zeros_id_head _ _ Hhead).
    assert (Hd45 : d <> 45).
    { apply Forall_cons in Hds as [Hd' _]. intros ->. discriminate. }
    destruct sg.
    + cbn [app JSON.parse_number N.eqb Pos.eqb].
      apply parse_magnitude; auto; discriminate.
    + cbn [app].
      assert (Hm : exists c m, Numeral.magnitude (d :: ds') n = c :: m
                               /\ is_digit c = true).
      { unfold Numeral.magnitude.
        apply Forall_cons in Hds as [Hd' _].
        destruct ((Z.of_nat (length (d :: ds')) <=? n)%Z && (n <=? 21)%Z);
          [cbn; eauto|].
        destruct ((0 <? n)%Z && (n <=? 21)%Z) eqn:Hb.
        { apply andb_true_iff in Hb as [Hb _]. apply Z.ltb_lt in Hb.
          destruct (Z.to_nat n) eqn:Hn; [lia|]. cbn. eauto. }
        destruct ((-6 <? n)%Z && (n <=? 0)%Z); [cbn; eauto|].
        change (take 1 (d :: ds')) with [d]. cbn. eauto. }
      destruct Hm as (c & m & Hm & Hc).
      assert (Happ := parse_magnitude false (d :: ds') n rest).
      rewrite Hm in *. cbn [app] in *. cbn [JSON.parse_number].
      destruct (N.eqb_spec c 45) as [->|_]; [discriminate|].
      apply Happ; auto; discriminate.
Qed.

End NumeralFacts.

Section StringFacts.
Import JSON.

Lemma hex_value_digit d : d < 16 -> hex_value (hex_digit d) = Some d.
Proof.
  intros Hd. unfold hex_value, hex_digit, JSString.is_digit.
  destruct (N.ltb_spec d 10).
  - replace ((48 <=? 48 + d) && (48 + d <=? 57)) with true
      by (symmetry; apply andb_true_iff; split; apply N.leb_le; lia).
    f_equal. lia.
  - replace ((48 <=? 87 + d) && (87 + d <=? 57)) with false
      by (symmetry; apply andb_false_iff; right; apply N.leb_gt; lia).
    replace ((97 <=? 87 + d) && (87 + d <=? 102)) with true
      by (symmetry; apply andb_true_iff; split; apply N.leb_le; lia).
    f_equal. lia.
Qed.

Lemma parse_unicode_escape c tail :
  c < 65536 ->
  parse_chars (unicode_escape c ++ tail) = pmap (cons c) (parse_chars tail).
Proof.
  intros Hc. unfold unicode_escape. cbn [app parse_chars N.eqb Pos.eqb].
  unfold hex4.
  assert (H16 : forall x, x mod 16 < 16) by (intros; apply N.mod_lt; lia).
  rewrite !hex_value_digit by apply H16.
  replace (c / 4096 mod 16 * 4096 + c / 256 mod 16 * 256
           + c / 16 mod 16 * 16 + c mod 16) with c; [reflexivity|].
  assert (H1 := N.Div0.div_mod c 16).
  assert (H2 : c / 16 = 16 * (c / 256) + (c / 16) mod 16).
  { replace (c / 256) with (c / 16 / 16)
      by (rewrite N.Div0.div_div; reflexivity).
    apply N.Div0.div_mod. }
  assert (H3 : c / 256 = 16 * (c / 4096) + (c / 256) mod 16).
  { replace (c / 4096) with (c / 256 / 16)
      by (rewrite N.Div0.div_div; reflexivity).
    apply N.Div0.div_mod. }
  assert (H4 : c / 4096 < 16) by (apply N.Div0.div_lt_upper_bound; lia).
  rewrite (N.mod_small (c / 4096) 16) by exact H4. lia.
Qed.

Lemma parse_raw_char c tail :
  32 <= c -> c <> 34 -> c <> 92 ->
  parse_chars (c :: tail) = pmap (cons c) (parse_chars tail).
Proof.
  intros H32 H34 H92. cbn [parse_chars].
  destruct (N.eqb_spec c 34); [contradiction|].
  destruct (N.eqb_spec c 92); [contradiction|].
  destruct (N.ltb_spec c 32); [lia|reflexivity].
Qed.

Lemma parse_escape_char c tail :
  c < 65536 ->
  parse_chars (escape_char c ++ tail) = pmap (cons c) (parse_chars tail).
Proof.
  intros Hc. unfold escape_char.
  repeat match goal with
         | |- context [N.eqb c ?k] => destruct (N.eqb_spec c k); [subst; reflexivity|]
         end.
  destruct (N.ltb_spec c 32).
  - now apply parse_unicode_escape.
  - now apply parse_raw_char.
Qed.

Lemma surrogate_bounds c :
  (is_high_surrogate c = true -> 32 <= c /\ c <> 34 /\ c <> 92 /\ c < 65536)
  /\ (is_low_surrogate c = true -> 32 <= c /\ c <> 34 /\ c <> 92 /\ c < 65536).
Proof.
  unfold is_high_surrogate, is_low_surrogate.
  split; intros [H1 H2]%andb_true_iff;
    apply N.leb_le in H1; apply N.leb_le in H2; lia.
Qed.

(** The characters of a quoted string read back as the string. *)
Lemma parse_quote_body s : forall paired rest,
  (paired = true -> starts_with_low_surrogate s = true) ->
  parse_chars (quote_body paired s ++ 34 :: rest) = Parsed s rest.
Proof.
  induction s as [|c s IH]; intros paired rest Hp; [reflexivity|].
  cbn [quote_body].
  destruct paired.
  - specialize (Hp eq_refl). cbn in Hp.
    apply surrogate_bounds in Hp as (H1 & H2 & H3 & _).
    cbn [app]. rewrite parse_raw_char by assumption.
    now rewrite IH.
  - destruct (is_high_surrogate c) eqn:Hh.
    + apply surrogate_bounds in Hh as (H1 & H2 & H3 & H4).
      destruct (starts_with_low_surrogate s) eqn:Hl.
      * cbn [app]. rewrite parse_raw_char by assumption. now rewrite IH.
      * rewrite <- app_assoc, parse_unicode_escape by assumption.
        now rewrite IH.
    + destruct (is_low_surrogate c) eqn:Hl.
      * apply surrogate_bounds in Hl as (H1 & H2 & H3 & H4).
        rewrite <- app_assoc, parse_unicode_escape by assumption.
        now rewrite IH.
      * destruct (N.ltb_spec c 65536).
        -- rewrite <- app_assoc, parse_escape_char by assumption.
           now rewrite IH.
        -- unfold escape_char.
           repeat match goal with
                  | |- context [N.eqb c ?k] =>
                      destruct (N.eqb_spec c k); [lia|]
                  end.
           destruct (N.ltb_spec c 32); [lia|].
           cbn [app]. rewrite parse_raw_char by lia. now rewrite IH.
Qed.

Lemma parse_quote s rest :
  exists body, quote s ++ rest = 34 :: body
               /\ parse_chars body = Parsed s rest.
Proof.
  exists (quote_body false s ++ 34 :: rest). split.
  - unfold quote. cbn. now rewrite <- app_assoc.
  - now apply parse_quote_body.
Qed.

End StringFacts.

Section RoundTrip.
Import JSON.

Lemma json_ind' (P : json -> Prop) :
  P JNull -> (forall b, P (JBool b)) -> (forall n, P (JNum n)) ->
  (forall s, P (JStr s)) ->
  (forall l, Forall P l -> P (JArr l)) ->
  (forall o, Forall (fun kv => P (snd kv)) o -> P (JObj o)) ->
  forall v, P v.
Proof.
  intros Hnull Hbool Hnum Hstr Harr Hobj.
  fix IH 1.
  intros [|b|n|s|l|o];
    [apply Hnull|apply Hbool|apply Hnum|apply Hstr|apply Harr|apply Hobj].
  - induction l as [|x l IHl]; constructor; [apply IH|exact IHl].
  - induction o as [|[k x] o IHo]; constructor; [apply IH|exact IHo].
Qed.

Lemma skip_ws_app ws s : ws_only ws -> skip_ws (ws ++ s) = skip_ws s.
Proof. induction 1 as [|c ws Hc _ IH]; cbn; [reflexivity|]. now rewrite Hc. Qed.

Lemma skip_ws_head c s : is_ws c = false -> skip_ws (c :: s) = c :: s.
Proof. intros H. cbn. now rewrite H. Qed.

Lemma parse_value_skip fuel ws s :
  ws_only ws -> parse_value fuel (ws ++ s) = parse_value fuel s.
Proof. intros H. destruct fuel; cbn; [reflexivity|]. now rewrite skip_ws_app. Qed.

Lemma to_string_head x :
  numeral_wf x ->
  exists c m, Numeral.to_string x = c :: m /\ (c = 45 \/ JSString.is_digit c = true).
Proof.
  intros (Hds & Hhead & Hlast & Hzero). unfold Numeral.to_string.
  destruct (Numeral.digits x) as [|d ds'] eqn:Hx; [cbn; eauto|].
  destruct (Numeral.neg x); [cbn; eauto|]. cbn [app].
  apply Forall_cons in Hds as [Hd' _]. unfold Numeral.magnitude.
  destruct ((Z.of_nat (length (d :: ds')) <=? Numeral.point x)%Z
            && (Numeral.point x <=? 21)%Z); [cbn; eauto|].
  destruct ((0 <? Numeral.point x)%Z && (Numeral.point x <=? 21)%Z) eqn:Hb.
  { apply andb_true_iff in Hb as [Hb _]. apply Z.ltb_lt in Hb.
    destruct (Z.to_nat (Numeral.point x)) eqn:Hn; [lia|]. cbn. eauto. }
  destruct ((-6 <? Numeral.point x)%Z && (Numeral.point x <=? 0)%Z);
    [cbn; eauto|].
  change (take 1 (d :: ds')) with [d]. cbn. eauto.
Qed.

Lemma wrap_nonempty gap indent stepback o c p ps :
  wrap gap indent stepback o c (p :: ps)
  = o :: open_ws gap indent
      ++ JSString.join (44 :: open_ws gap indent) (p :: ps)
      ++ open_ws gap stepback ++ [c].
Proof.
  unfold wrap, open_ws. destruct gap; reflexivity.
Qed.

Lemma open_ws_only gap indent : ws_only indent -> ws_only (open_ws gap indent).
Proof. intros H. unfold open_ws. destruct gap; constructor; auto. Qed.

Lemma delimited_close gap indent c rest :
  c = 93 \/ c = 125 -> delimited (open_ws gap indent ++ c :: rest).
Proof. unfold open_ws. destruct gap; cbn; tauto. Qed.

Lemma join_cons sep p q qs :
  JSString.join sep (p :: q :: qs) = p ++ sep ++ JSString.join sep (q :: qs).
Proof. reflexivity. Qed.

(** The first character of a serialized value: not white space and not a
    closing bracket. *)
Lemma serialize_head gap indent v :
  json_wf v ->
  exists c s, serialize gap indent v = c :: s
              /\ is_ws c = false /\ c <> 93 /\ c <> 125.
Proof.
  destruct v as [|[]|n|s|l|o]; cbn [serialize json_wf]; intros Hwf.
  - do 2 eexists. split; [reflexivity|]. repeat split; discriminate.
  - do 2 eexists. split; [reflexivity|]. repeat split; discriminate.
  - do 2 eexists. split; [reflexivity|]. repeat split; discriminate.
  - destruct (to_string_head n Hwf) as (c & m & -> & Hc).
    exists c, m. split; [reflexivity|].
    destruct Hc as [->|Hc]; [repeat split; discriminate|].
    unfold JSString.is_digit in Hc. apply andb_true_iff in Hc as [H1 H2].
    apply N.leb_le in H1. apply N.leb_le in H2. unfold is_ws.
    repeat split; try lia.
    repeat match goal with
           | |- context [N.eqb c ?k] => destruct (N.eqb_spec c k); [lia|]
           end. reflexivity.
  - do 2 eexists. split; [reflexivity|]. repeat split; discriminate.
  - unfold wrap. destruct (map _ l); [|destruct gap];
      do 2 eexists; (split; [reflexivity|]); repeat split; discriminate.
  - unfold wrap. destruct (map _ o); [|destruct gap];
      do 2 eexists; (split; [reflexivity|]); repeat split; discriminate.
Qed.

Lemma wf_list l :
  fold_right (fun x P => json_wf x /\ P) True l <-> Forall json_wf l.
Proof.
  induction l as [|x l IH]; cbn; [split; auto|].
  rewrite IH, Forall_cons. reflexivity.
Qed.

Lemma wf_members (o : list (jsstring * json)) :
  fold_right (fun '(_, x) P => json_wf x /\ P) True o
  <-> Forall (fun kv => json_wf (snd kv)) o.
Proof.
  induction o as [|[k x] o IH]; cbn; [split; auto|].
  rewrite IH, Forall_cons. reflexivity.
Qed.

(** The items of an array read back, up to the closing bracket. *)
Lemma parse_elements_printed gap ind cws rest l :
  ws_only gap -> ws_only ind -> ws_only cws -> delimited (cws ++ 93 :: rest) ->
  Forall reads_back l -> Forall json_wf l -> l <> [] ->
  forall pre fuel,
    ws_only pre -> (size_list l <= fuel)%nat ->
    parse_elements fuel
      (pre ++ JSString.join (44 :: open_ws gap ind) (map (serialize gap ind) l)
           ++ cws ++ 93 :: rest)
    = Parsed l rest.
Proof.
  intros Hgap Hind Hcws Hdel Hrb Hwf Hne.
  induction l as [|v l IH]; [congruence|]. clear Hne.
  apply Forall_cons in Hrb as [Hv Hrb]. apply Forall_cons in Hwf as [Wv Wl].
  intros pre fuel Hpre Hfuel. cbn [size_list fold_right] in Hfuel.
  fold (size_list l) in Hfuel.
  destruct fuel as [|f]; [lia|]. cbn [parse_elements].
  rewrite parse_value_skip by exact Hpre.
  destruct l as [|v2 l'].
  - cbn [map JSString.join].
    rewrite (Hv gap ind (cws ++ 93 :: rest) f) by (auto; lia).
    rewrite skip_ws_app by exact Hcws. reflexivity.
  - cbn [map]. rewrite join_cons. rewrite <- !app_assoc. cbn [app].
    rewrite (Hv gap ind _ f) by (cbn; auto; lia).
    cbn [skip_ws is_ws N.eqb Pos.eqb orb].
    change (serialize gap ind v2 :: map (serialize gap ind) l')
      with (map (serialize gap ind) (v2 :: l')).
    rewrite (IH Hrb Wl) ; [reflexivity|discriminate| |lia].
    now apply open_ws_only.
Qed.

(** The members of an object read back, up to the closing brace. *)
Lemma parse_members_printed gap ind cws rest (o : list (jsstring * json)) :
  ws_only gap -> ws_only ind -> ws_only cws -> delimited (cws ++ 125 :: rest) ->
  Forall (fun kv => reads_back (snd kv)) o ->
  Forall (fun kv => json_wf (snd kv)) o -> o <> [] ->
  forall pre fuel,
    ws_only pre -> (size_members o <= fuel)%nat ->
    parse_members fuel
      (pre ++ JSString.join (44 :: open_ws gap ind)
                (map (fun '(k, x) =>
                        quote k ++ 58 :: match gap with [] => [] | _ => [32] end
                        ++ serialize gap ind x) o)
           ++ cws ++ 125 :: rest)
    = Parsed o rest.
Proof.
  intros Hgap Hind Hcws Hdel Hrb Hwf Hne.
  assert (Hsp : ws_only match gap with [] => [] | _ => [32] end)
    by (destruct gap; repeat constructor).
  induction o as [|[k v] o IH]; [congruence|]. clear Hne.
  apply Forall_cons in Hrb as [Hv Hrb]. apply Forall_cons in Hwf as [Wv Wl].
  cbn [snd] in Hv, Wv.
  intros pre fuel Hpre Hfuel. cbn [size_members fold_right] in Hfuel.
  fold (size_members o) in Hfuel.
  destruct fuel as [|f]; [lia|]. cbn [parse_members].
  rewrite skip_ws_app by exact Hpre.
  destruct o as [|[k2 v2] o'].
  - cbn [map JSString.join]. rewrite <- !app_assoc. cbn [app].
    rewrite <- !app_assoc.
    match goal with
    | |- context [quote k ++ ?t] =>
        destruct (parse_quote k t) as (body & Hq & Hb); rewrite Hq
    end.
    cbn [skip_ws is_ws N.eqb Pos.eqb orb]. rewrite Hb.
    cbn [skip_ws is_ws N.eqb Pos.eqb orb].
    rewrite parse_value_skip by exact Hsp.
    rewrite (Hv gap ind (cws ++ 125 :: rest) f) by (auto; lia).
    rewrite skip_ws_app by exact Hcws. reflexivity.
  - cbn [map]. rewrite join_cons. rewrite <- !app_assoc. cbn [app].
    rewrite <- !app_assoc.
    match goal with
    | |- context [quote k ++ ?t] =>
        destruct (parse_quote k t) as (body & Hq & Hb); rewrite Hq
    end.
    cbn [skip_ws is_ws N.eqb Pos.eqb orb]. rewrite Hb.
    cbn [skip_ws is_ws N.eqb Pos.eqb orb].
    rewrite parse_value_skip by exact Hsp.
    rewrite (Hv gap ind _ f) by (cbn; auto; lia).
    cbn [skip_ws is_ws N.eqb Pos.eqb orb].
    match goal with
    | |- context [parse_members f (?p ++ ?j ++ ?r)] =>
        change j with (JSString.join (44 :: open_ws gap ind)
          (map (fun '(k, x) =>
                  quote k ++ 58 :: match gap with [] => [] | _ => [32] end
                  ++ serialize gap ind x) ((k2, v2) :: o')))
    end.
    rewrite (IH Hrb Wl); [reflexivity|discriminate| |lia].
    now apply open_ws_only.
Qed.

Lemma reads_back_all v : reads_back v.
Proof.
  induction v as [|b|n|s|l IH|o IH] using json_ind';
    intros gap indent rest fuel Hgap Hind Hrest Hfuel Hwf;
    (destruct fuel as [|f]; [cbn in Hfuel; lia|]).
  - reflexivity.
  - destruct b; reflexivity.
  - cbn [serialize json_wf] in *.
    destruct (to_string_head n Hwf) as (c & m & Hm & Hc).
    assert (Hp := parse_number_printed n rest Hwf Hrest).
    rewrite Hm in *. cbn [app] in *. cbn [parse_value].
    assert (Hws : is_ws c = false /\ (c =? 123) = false /\ (c =? 91) = false
                  /\ (c =? 34) = false
                  /\ (c =? 45) || JSString.is_digit c = true).
    { destruct Hc as [->|Hc]; [repeat split; reflexivity|].
      rewrite Hc, orb_true_r. unfold JSString.is_digit in Hc.
      apply andb_true_iff in Hc as [H1 H2].
      apply N.leb_le in H1. apply N.leb_le in H2. unfold is_ws.
      repeat split;
        repeat match goal with
               | |- context [N.eqb c ?k] => destruct (N.eqb_spec c k); [lia|]
               end; reflexivity. }
    destruct Hws as (H1 & H2 & H3 & H4 & H5).
    rewrite skip_ws_head by exact H1. rewrite H2, H3, H4, H5, Hp. reflexivity.
  - cbn [serialize].
    destruct (parse_quote s rest) as (body & Hq & Hb). rewrite Hq.
    cbn [parse_value skip_ws is_ws N.eqb Pos.eqb orb]. now rewrite Hb.
  - cbn [serialize json_wf json_size] in *. fold (size_list l) in Hfuel.
    apply wf_list in Hwf.
    destruct l as [|v l]; [reflexivity|].
    cbn [map]. rewrite wrap_nonempty.
    destruct (serialize_head gap (indent ++ gap) v) as (c & t & Hc & Hws & H93 & _);
      [now apply Forall_cons in Hwf|].
    cbn [app]. rewrite <- !app_assoc. cbn [app].
    cbn [parse_value skip_ws is_ws N.eqb Pos.eqb orb].
    rewrite skip_ws_app by (apply open_ws_only, Forall_app_2; auto).
    assert (Hskip : exists t', skip_ws
       (JSString.join (44 :: open_ws gap (indent ++ gap))
           (serialize gap (indent ++ gap) v :: map (serialize gap (indent ++ gap)) l)
         ++ open_ws gap indent ++ 93 :: rest) = c :: t').
    { destruct l; cbn [map JSString.join]; rewrite Hc; cbn [app];
        rewrite skip_ws_head by exact Hws; eauto. }
    destruct Hskip as [t' ->].
    destruct (N.eqb_spec c 93); [contradiction|].
    change (serialize gap (indent ++ gap) v
            :: map (serialize gap (indent ++ gap)) l)
      with (map (serialize gap (indent ++ gap)) (v :: l)).
    rewrite (parse_elements_printed gap (indent ++ gap) (open_ws gap indent)
               rest (v :: l)); auto.
    + apply Forall_app_2; auto.
    + now apply open_ws_only.
    + apply delimited_close. auto.
    + apply open_ws_only, Forall_app_2; auto.
    + lia.
  - cbn [serialize json_wf json_size] in *. fold (size_members o) in Hfuel.
    destruct Hwf as [Hcanon Hwf]. apply wf_members in Hwf.
    destruct o as [|[k v] o]; [reflexivity|].
    cbn [map]. rewrite wrap_nonempty.
    cbn [app]. rewrite <- !app_assoc. cbn [app].
    cbn [parse_value skip_ws is_ws N.eqb Pos.eqb orb].
    rewrite skip_ws_app by (apply open_ws_only, Forall_app_2; auto).
    match goal with
    | |- context [match skip_ws ?T with _ => _ end] =>
        assert (Hskip : exists t', skip_ws T = 34 :: t')
    end.
    { destruct o as [|[k2 v2] o]; cbn [map JSString.join]; unfold quote;
        cbn [app]; rewrite skip_ws_head by reflexivity; eauto. }
    destruct Hskip as [t' Ht']. rewrite Ht'. cbn [N.eqb Pos.eqb].
    match goal with
    | |- context [JSString.join ?sep (?m :: map ?g o)] =>
        change (m :: map g o) with (map g ((k, v) :: o))
    end.
    rewrite (parse_members_printed gap (indent ++ gap) (open_ws gap indent)
               rest ((k, v) :: o)); auto.
    + cbn [pmap]. now rewrite Hcanon.
    + apply Forall_app_2; auto.
    + now apply open_ws_only.
    + apply delimited_close. auto.
    + apply open_ws_only, Forall_app_2; auto.
    + lia.
Qed.

Lemma join_length (sep : jsstring) (ps : list jsstring) (ns : list nat) :
  Forall2 (fun p n => (n <= length p)%nat) ps ns ->
  (fold_right (fun n a => S (n + a)) 0 ns
   <= S (length (JSString.join (44%N :: sep) ps)))%nat.
Proof.
  induction 1 as [|p n ps ns Hp Hps IH]; cbn [fold_right]; [lia|].
  destruct ps as [|q qs].
  - inversion Hps; subst. cbn. lia.
  - rewrite join_cons, !length_app. cbn [length] in *.
    set (F := fold_right _ _ ns) in *.
    set (J := length (JSString.join _ _)) in *. lia.
Qed.

Lemma wrap_length gap indent stepback o c ps (ns : list nat) :
  Forall2 (fun p n => (n <= length p)%nat) ps ns ->
  (S (fold_right (fun n a => S (n + a)) 0 ns)
   <= length (wrap gap indent stepback o c ps))%nat.
Proof.
  intros H. destruct H as [|p n ps ns Hp Hps]; [cbn; lia|].
  rewrite wrap_nonempty. cbn [length]. rewrite !length_app. cbn [length].
  assert (Hj : (fold_right (fun n a => S (n + a)) 0 (n :: ns)
                <= S (length (JSString.join (44%N :: open_ws gap indent)
                                (p :: ps))))%nat)
    by (apply join_length; now constructor).
  set (F := fold_right _ _ (n :: ns)) in *.
  set (J := length (JSString.join _ _)) in *. lia.
Qed.

(** The text of a value is at least as long as the fuel it needs. *)
Lemma size_le_length v : forall gap indent,
  json_wf v -> (json_size v <= length (serialize gap indent v))%nat.
Proof.
  induction v as [|b|n|s|l IH|o IH] using json_ind'; intros gap indent Hwf.
  - cbn. lia.
  - destruct b; cbn; lia.
  - cbn [serialize json_wf json_size] in *.
    destruct (to_string_head n Hwf) as (c & m & -> & _). cbn. lia.
  - cbn. lia.
  - cbn [serialize json_wf json_size] in *. apply wf_list in Hwf.
    replace (fold_right (fun x n => S (json_size x + n)) 0%nat l)
      with (fold_right (fun n a => S (n + a)) 0%nat (map json_size l))
      by (clear; induction l; cbn; congruence).
    apply wrap_length.
    clear -IH Hwf. induction l as [|x l IHl]; cbn [map]; constructor.
    + apply Forall_cons in IH as [IH _]. apply Forall_cons in Hwf as [Hw _].
      now apply IH.
    + apply Forall_cons in IH as [_ IH]. apply Forall_cons in Hwf as [_ Hw].
      now apply IHl.
  - cbn [serialize json_wf json_size] in *. destruct Hwf as [_ Hwf].
    apply wf_members in Hwf.
    replace (fold_right (fun '(_, x) n => S (json_size x + n)) 0%nat o)
      with (fold_right (fun n a => S (n + a)) 0%nat
              (map (fun kv => json_size (snd kv)) o))
      by (clear; induction o as [|[k x] o IHo]; cbn; congruence).
    apply wrap_length.
    clear -IH Hwf. induction o as [|[k x] o IHo]; cbn [map]; constructor.
    + apply Forall_cons in IH as [IH _]. apply Forall_cons in Hwf as [Hw _].
      cbn [snd] in *. rewrite !length_app. cbn [length].
      rewrite length_app. specialize (IH gap (indent ++ gap) Hw). lia.
    + apply Forall_cons in IH as [_ IH]. apply Forall_cons in Hwf as [_ Hw].
      now apply IHo.
Qed.

(** [JSON.parse] inverts [JSON.stringify], with or without indentation. *)
Lemma parse_serialize gap v :
  ws_only gap -> json_wf v -> JSON.parse (serialize gap [] v) = Some v.
Proof.
  intros Hgap Hwf. unfold JSON.parse.
  rewrite <- (app_nil_r (serialize gap [] v)) at 2.
  rewrite (reads_back_all v gap [] []); auto.
  - constructor.
  - exact I.
  - unfold fuel_for. assert (H := size_le_length v gap [] Hwf). lia.
Qed.

Lemma parse_stringify v : json_wf v -> JSON.parse (JSON.stringify v) = Some v.
Proof. apply parse_serialize. constructor. Qed.

Lemma parse_stringify_pretty v :
  json_wf v -> JSON.parse (JSON.stringify_pretty v) = Some v.
Proof. apply parse_serialize. repeat constructor. Qed.

End RoundTrip.

(** * Export followed by import *)

Section BackupFacts.
Import storageService Spec.

(** A record of the shape of [AppSettings] is complete. *)
Lemma AppSettings_complete headerQuote noteCategories ledgerCategories :
  complete_settings [(str "headerQuote", headerQuote);
                     (str "noteCategories", noteCategories);
                     (str "ledgerCategories", ledgerCategories)].
Proof. reflexivity. Qed.






End BackupFacts.

(** * The fuel of [JSON.parse] never runs out *)

Section FuelFacts.
Import JSON.

Lemma skip_ws_length s : (length (skip_ws s) <= length s)%nat.
Proof.
  induction s as [|c s IH]; cbn; [lia|]. destruct (is_ws c); cbn; lia.
Qed.

Lemma pmap_parsed {A B} (f : A -> B) p b r :
  pmap f p = Parsed b r -> exists a, p = Parsed a r /\ b = f a.
Proof. destruct p; cbn; intros H; inversion H; eauto. Qed.

Lemma parse_chars_length s : forall k r,
  parse_chars s = Parsed k r -> (length r < length s)%nat.
Proof.
  induction s as [s IH] using (induction_ltof1 _ (@length N)).
  unfold ltof in IH. intros k r. destruct s as [|c s]; [discriminate|].
  cbn [parse_chars].
  destruct (c =? 34); [intros H; inversion H; subst; cbn; lia|].
  destruct (c =? 92).
  - destruct s as [|e s]; [discriminate|].
    destruct (e =? 117).
    + destruct s as [|h1 [|h2 [|h3 [|h4 s]]]]; try discriminate.
      destruct (hex4 h1 h2 h3 h4); [|discriminate].
      intros (a & Ha & _)%pmap_parsed. apply IH in Ha; cbn in *; lia.
    + destruct (simple_escape e); [|discriminate].
      intros (a & Ha & _)%pmap_parsed. apply IH in Ha; cbn in *; lia.
  - destruct (c <? 32); [discriminate|].
    intros (a & Ha & _)%pmap_parsed. apply IH in Ha; cbn in *; lia.
Qed.

Lemma span_digits_length s d r :
  JSString.span_digits s = (d, r) -> length s = (length d + length r)%nat.
Proof.
  revert d r. induction s as [|c s IH]; intros d r; cbn.
  - intros H; inversion H; reflexivity.
  - destruct (JSString.is_digit c).
    + destruct (JSString.span_digits s) as [d' r'] eqn:Hs.
      intros H; inversion H; subst. cbn. rewrite (IH d' r eq_refl). lia.
    + intros H; inversion H; subst. reflexivity.
Qed.

Lemma parse_digits1_length s d r :
  parse_digits1 s = Some (d, r) -> (length r < length s)%nat.
Proof.
  unfold parse_digits1. destruct (JSString.span_digits s) as [d' r'] eqn:Hs.
  apply span_digits_length in Hs. destruct d'; [discriminate|].
  intros H; inversion H; subst. cbn in Hs. lia.
Qed.

Lemma parse_unsigned_length sg s x r :
  parse_unsigned sg s = Parsed x r -> (length r < length s)%nat.
Proof.
  unfold parse_unsigned.
  destruct (parse_int_part s) as [[ip s1]|] eqn:Hi; [|discriminate].
  assert (H1 : (length s1 < length s)%nat).
  { unfold parse_int_part in Hi. destruct s as [|c s]; [discriminate|].
    destruct (c =? 48); [inversion Hi; subst; cbn; lia|].
    now apply parse_digits1_length in Hi. }
  destruct (parse_fraction s1) as [[fp s2]|] eqn:Hf; [|discriminate].
  assert (H2 : (length s2 <= length s1)%nat).
  { unfold parse_fraction in Hf. destruct s1 as [|c s1]; [inversion Hf; subst; lia|].
    destruct (c =? 46); [|inversion Hf; subst; lia].
    apply parse_digits1_length in Hf. cbn. lia. }
  destruct (parse_exponent s2) as [[e s3]|] eqn:He; [|discriminate].
  assert (H3 : (length s3 <= length s2)%nat).
  { unfold parse_exponent in He. destruct s2 as [|c s2]; [inversion He; subst; lia|].
    destruct ((c =? 101) || (c =? 69)); [|inversion He; subst; lia].
    destruct s2 as [|g s2]; [discriminate|].
    destruct (g =? 45).
    - destruct (parse_digits1 s2) as [[d r']|] eqn:Hd; [|discriminate].
      apply parse_digits1_length in Hd. inversion He; subst. cbn. lia.
    - destruct (parse_digits1 (if g =? 43 then s2 else g :: s2))
        as [[d r']|] eqn:Hd; [|discriminate].
      apply parse_digits1_length in Hd. inversion He; subst.
      destruct (g =? 43); cbn in *; lia. }
  intros H; inversion H; subst. lia.
Qed.

Lemma parse_number_length s x r :
  parse_number s = Parsed x r -> (length r < length s)%nat.
Proof.
  unfold parse_number. destruct s as [|c s]; [discriminate|].
  destruct (c =? 45); intros H%parse_unsigned_length; cbn in *; lia.
Qed.

Lemma strip_prefix_length p : forall s r,
  strip_prefix p s = Some r -> length s = (length p + length r)%nat.
Proof.
  induction p as [|a p IH]; intros s r; cbn.
  - intros H; inversion H; reflexivity.
  - destruct s as [|b s]; [discriminate|]. destruct (a =? b); [|discriminate].
    intros H%IH. cbn. lia.
Qed.

Lemma parse_literal_length s v r :
  parse_literal s = Parsed v r -> (length r < length s)%nat.
Proof.
  unfold parse_literal.
  destruct (strip_prefix (str "true") s) eqn:H1;
    [apply strip_prefix_length in H1; intros H; inversion H; subst; cbn in H1; lia|].
  destruct (strip_prefix (str "false") s) eqn:H2;
    [apply strip_prefix_length in H2; intros H; inversion H; subst; cbn in H2; lia|].
  destruct (strip_prefix (str "null") s) eqn:H3;
    [apply strip_prefix_length in H3; intros H; inversion H; subst; cbn in H3; lia|].
  discriminate.
Qed.

Lemma skip_ws_cons s c r :
  skip_ws s = c :: r -> (length r < length s)%nat.
Proof. intros H. assert (Hl := skip_ws_length s). rewrite H in Hl. cbn in Hl. lia. Qed.

(** Every parser consumes at least one character. *)
Lemma parse_progress fuel :
  (forall s v r, parse_value fuel s = Parsed v r -> (length r < length s)%nat)
  /\ (forall s l r,
        parse_elements fuel s = Parsed l r -> (length r < length s)%nat)
  /\ (forall s o r,
        parse_members fuel s = Parsed o r -> (length r < length s)%nat).
Proof.
  induction fuel as [|f (IHv & IHe & IHm)]; [repeat split; discriminate|].
  split; [|split].
  - intros s v r. cbn [parse_value].
    destruct (skip_ws s) as [|c s'] eqn:Hs; [discriminate|].
    apply skip_ws_cons in Hs.
    destruct (c =? 123).
    { destruct (skip_ws s') as [|c' s''] eqn:Hs'; [discriminate|].
      apply skip_ws_cons in Hs'.
      destruct (c' =? 125); [intros H; inversion H; subst; lia|].
      intros (a & Ha%IHm & _)%pmap_parsed. lia. }
    destruct (c =? 91).
    { destruct (skip_ws s') as [|c' s''] eqn:Hs'; [discriminate|].
      apply skip_ws_cons in Hs'.
      destruct (c' =? 93); [intros H; inversion H; subst; lia|].
      intros (a & Ha%IHe & _)%pmap_parsed. lia. }
    destruct (c =? 34).
    { intros (a & Ha%parse_chars_length & _)%pmap_parsed. lia. }
    destruct ((c =? 45) || JSString.is_digit c).
    { intros (a & Ha%parse_number_length & _)%pmap_parsed. cbn in Ha. lia. }
    intros H%parse_literal_length. cbn in H. lia.
  - intros s l r. cbn [parse_elements].
    destruct (parse_value f s) as [v r0| |] eqn:Hv; try discriminate.
    apply IHv in Hv.
    destruct (skip_ws r0) as [|c r'] eqn:Hr; [discriminate|].
    apply skip_ws_cons in Hr.
    destruct (c =? 44); [intros (a & Ha%IHe & _)%pmap_parsed; lia|].
    destruct (c =? 93); [intros H; inversion H; subst; lia|discriminate].
  - intros s o r. cbn [parse_members].
    destruct (skip_ws s) as [|q s1] eqn:Hs; [discriminate|].
    apply skip_ws_cons in Hs.
    destruct (q =? 34); [|discriminate].
    destruct (parse_chars s1) as [k s2| |] eqn:Hk; try discriminate.
    apply parse_chars_length in Hk.
    destruct (skip_ws s2) as [|c s3] eqn:Hs2; [discriminate|].
    apply skip_ws_cons in Hs2.
    destruct (c =? 58); [|discriminate].
    destruct (parse_value f s3) as [v r0| |] eqn:Hv; try discriminate.
    apply IHv in Hv.
    destruct (skip_ws r0) as [|d r'] eqn:Hr; [discriminate|].
    apply skip_ws_cons in Hr.
    destruct (d =? 44); [intros (a & Ha%IHm & _)%pmap_parsed; lia|].
    destruct (d =? 125); [intros H; inversion H; subst; lia|discriminate].
Qed.

Lemma pmap_exhausted {A B} (f : A -> B) p :
  pmap f p = Exhausted -> p = Exhausted.
Proof. destruct p; cbn; congruence. Qed.

Lemma parse_chars_not_exhausted s : parse_chars s <> Exhausted.
Proof.
  induction s as [s IH] using (induction_ltof1 _ (@length N)).
  unfold ltof in IH. destruct s as [|c s]; [discriminate|].
  cbn [parse_chars]. destruct (c =? 34); [discriminate|].
  destruct (c =? 92).
  - destruct s as [|e s]; [discriminate|]. destruct (e =? 117).
    + destruct s as [|h1 [|h2 [|h3 [|h4 s]]]]; try discriminate.
      destruct (hex4 h1 h2 h3 h4); [|discriminate].
      intros H%pmap_exhausted. revert H. apply IH. cbn. lia.
    + destruct (simple_escape e); [|discriminate].
      intros H%pmap_exhausted. revert H. apply IH. cbn. lia.
  - destruct (c <? 32); [discriminate|].
    intros H%pmap_exhausted. revert H. apply IH. cbn. lia.
Qed.

(** With two units of fuel per character no parser runs out. *)
Lemma parse_enough_fuel fuel :
  (forall s, (2 * length s + 1 <= fuel)%nat -> parse_value fuel s <> Exhausted)
  /\ (forall s, (2 * length s + 2 <= fuel)%nat ->
                parse_elements fuel s <> Exhausted)
  /\ (forall s, (2 * length s + 1 <= fuel)%nat ->
                parse_members fuel s <> Exhausted).
Proof.
  induction fuel as [|f (IHv & IHe & IHm)]; [repeat split; intros; lia|].
  destruct (parse_progress f) as (Pv & _ & _).
  split; [|split].
  - intros s Hf. cbn [parse_value].
    destruct (skip_ws s) as [|c s'] eqn:Hs; [discriminate|].
    apply skip_ws_cons in Hs.
    destruct (c =? 123).
    { destruct (skip_ws s') as [|c' s''] eqn:Hs'; [discriminate|].
      destruct (c' =? 125); [discriminate|].
      intros H%pmap_exhausted. revert H. apply IHm. lia. }
    destruct (c =? 91).
    { destruct (skip_ws s') as [|c' s''] eqn:Hs'; [discriminate|].
      destruct (c' =? 93); [discriminate|].
      intros H%pmap_exhausted. revert H. apply IHe. lia. }
    destruct (c =? 34).
    { intros H%pmap_exhausted. revert H. apply parse_chars_not_exhausted. }
    destruct ((c =? 45) || JSString.is_digit c).
    { intros H%pmap_exhausted. revert H. unfold parse_number.
      destruct (c =? 45); unfold parse_unsigned;
        repeat match goal with
               | |- context [match ?x with _ => _ end] => destruct x
               end; discriminate. }
    unfold parse_literal.
    repeat match goal with
           | |- context [match ?x with _ => _ end] => destruct x
           end; discriminate.
  - intros s Hf. cbn [parse_elements].
    destruct (parse_value f s) as [v r0| |] eqn:Hv; [|discriminate|].
    + apply Pv in Hv.
      destruct (skip_ws r0) as [|c r'] eqn:Hr; [discriminate|].
      apply skip_ws_cons in Hr.
      destruct (c =? 44).
      * intros H%pmap_exhausted. revert H. apply IHe. lia.
      * destruct (c =? 93); discriminate.
    + exfalso. revert Hv. apply IHv. lia.
  - intros s Hf. cbn [parse_members].
    destruct (skip_ws s) as [|q s1] eqn:Hs; [discriminate|].
    apply skip_ws_cons in Hs.
    destruct (q =? 34); [|discriminate].
    destruct (parse_chars s1) as [k s2| |] eqn:Hk; [|discriminate|].
    + apply parse_chars_length in Hk.
      destruct (skip_ws s2) as [|c s3] eqn:Hs2; [discriminate|].
      apply skip_ws_cons in Hs2.
      destruct (c =? 58); [|discriminate].
      destruct (parse_value f s3) as [v r0| |] eqn:Hv; [|discriminate|].
      * apply Pv in Hv.
        destruct (skip_ws r0) as [|d r'] eqn:Hr; [discriminate|].
        apply skip_ws_cons in Hr.
        destruct (d =? 44).
        -- intros H%pmap_exhausted. revert H. apply IHm. lia.
        -- destruct (d =? 125); discriminate.
      * exfalso. revert Hv. apply IHv. lia.
    + exfalso. revert Hk. apply parse_chars_not_exhausted.
Qed.

(** [JSON.parse] fails only on malformed text, never for lack of fuel. *)
Lemma parse_never_exhausted text :
  parse_value (fuel_for text) text <> Exhausted.
Proof. apply (parse_enough_fuel (fuel_for text)). unfold fuel_for. lia. Qed.

End FuelFacts.

(** * Enumeration order of objects *)

Section OrderFacts.
Import JSString JSObject.

Lemma uint_of_chars_digits k :
  digits_only k -> chars_of_uint (uint_of_chars k) = k.
Proof.
  induction 1 as [|c k Hc _ IH]; [reflexivity|].
  cbn [uint_of_chars].
  unfold is_digit in Hc. apply andb_true_iff in Hc as [?%N.leb_le ?%N.leb_le].
  assert (Hcases : c = 48 \/ c = 49 \/ c = 50 \/ c = 51 \/ c = 52 \/ c = 53
                   \/ c = 54 \/ c = 55 \/ c = 56 \/ c = 57) by lia.
  repeat (destruct Hcases as [->|Hcases]; [cbn; f_equal; exact IH|]).
  subst c. cbn. f_equal. exact IH.
Qed.

Lemma array_index_canonical k i :
  array_index k = Some i -> k = of_N i.
Proof.
  unfold array_index. destruct k as [|c k']; [discriminate|].
  destruct (forallb is_digit (c :: k')) eqn:Hd; [|discriminate].
  destruct (negb (c =? 48) || match k' with [] => true | _ => false end) eqn:Hz;
    [|discriminate].
  cbn [andb].
  destruct ((length (c :: k') <=? 10)%nat && (to_N (c :: k') <=? 4294967294));
    [|discriminate].
  intros H; inversion H; subst i; clear H.
  unfold of_N, to_N. rewrite DecimalN.Unsigned.to_of.
  assert (Hdig : digits_only (c :: k')).
  { apply Forall_forall. intros x Hx. rewrite forallb_forall in Hd.
    apply Hd. apply list_elem_of_In. exact Hx. }
  assert (Hn : Decimal.unorm (uint_of_chars (c :: k')) = uint_of_chars (c :: k')).
  { destruct (c =? 48) eqn:Hc.
    - destruct k'; [|discriminate]. apply N.eqb_eq in Hc. subst c. reflexivity.
    - inversion Hdig as [|? ? Hc' _]; subst. unfold is_digit in Hc'.
      apply andb_true_iff in Hc' as [?%N.leb_le ?%N.leb_le].
      apply N.eqb_neq in Hc.
      assert (Hcases : c = 49 \/ c = 50 \/ c = 51 \/ c = 52 \/ c = 53
                   \/ c = 54 \/ c = 55 \/ c = 56 \/ c = 57) by lia.
      repeat (destruct Hcases as [->|Hcases]; [reflexivity|]).
      subst c. reflexivity. }
  rewrite Hn. symmetry. apply uint_of_chars_digits. exact Hdig.
Qed.

Lemma array_index_inj k k' i :
  array_index k = Some i -> array_index k' = Some i -> k = k'.
Proof.
  intros H1%array_index_canonical H2%array_index_canonical. congruence.
Qed.

Section Ordered.
Context {V : Type}.
Implicit Types (o : JSObject.t V).

Lemma get_None o k : get o k = None <-> k ∉ map fst o.
Proof.
  induction o as [|[k' v'] o IH]; cbn.
  - split; [intros _; apply not_elem_of_nil|reflexivity].
  - rewrite not_elem_of_cons. unfold eqb. case_bool_decide as Hk.
    + split; [discriminate|]. intros [Hne _]. congruence.
    + rewrite IH. split; [intros H; split; [congruence|exact H]|tauto].
Qed.

Lemma keys_replace o k v : map fst (replace o k v) = map fst o.
Proof.
  induction o as [|[k' v'] o IH]; [reflexivity|].
  cbn. destruct (eqb k' k); cbn; [reflexivity|]. f_equal. exact IH.
Qed.

Lemma keys_insert_index o i k v :
  map fst (insert_index o i k v) ≡ₚ k :: map fst o.
Proof.
  induction o as [|[k' v'] o IH]; [reflexivity|].
  cbn. destruct (array_index k') as [j|]; [|reflexivity].
  destruct (j <? i); [|reflexivity].
  cbn. rewrite IH. apply Permutation_swap.
Qed.

Lemma key_before_index k i k' j :
  array_index k = Some i -> array_index k' = Some j ->
  key_before k k' <-> i < j.
Proof. intros Hk Hk'. unfold key_before. rewrite Hk, Hk'. reflexivity. Qed.

Lemma key_before_plain k k' : array_index k' = None -> key_before k k'.
Proof. intros Hk'. unfold key_before. rewrite Hk'. exact I. Qed.

Lemma ordered_cons k v o :
  ordered ((k, v) :: o)
  <-> (k ∉ map fst o) /\ Forall (key_before k) (map fst o) /\ ordered o.
Proof.
  unfold ordered. cbn [map fst]. rewrite NoDup_cons. split.
  - intros [[Hk Hnd] Hs]. inversion Hs; subst. tauto.
  - intros (Hk & Hall & Hnd & Hs). split; [tauto|]. constructor; assumption.
Qed.

Lemma ordered_insert_index o i k v :
  ordered o -> get o k = None -> array_index k = Some i ->
  ordered (insert_index o i k v).
Proof.
  intros Ho Hget Hi. induction o as [|[k' v'] o IH].
  - cbn. apply ordered_cons. repeat split; try constructor.
    apply not_elem_of_nil.
  - apply ordered_cons in Ho as (Hk' & Hall & Ho).
    apply get_None in Hget. cbn [map fst] in Hget.
    apply not_elem_of_cons in Hget as [Hne Hk].
    assert (Hhead : forall j, array_index k' = Some j -> ~ j < i ->
              Forall (key_before k) (map fst ((k', v') :: o))).
    { intros j Hj Hlt. assert (i <> j).
      { intros ->. apply Hne. eapply array_index_inj; eassumption. }
      cbn [map fst]. constructor.
      - eapply key_before_index; [eassumption..|]. lia.
      - eapply Forall_impl; [exact Hall|]. intros k'' Hb. cbn beta in Hb.
        unfold key_before in *. rewrite Hi. rewrite Hj in Hb.
        destruct (array_index k''); [lia|exact I]. }
    cbn [insert_index]. destruct (array_index k') as [j|] eqn:Hj.
    + destruct (j <? i) eqn:Hlt.
      * apply N.ltb_lt in Hlt. apply ordered_cons. split; [|split].
        -- rewrite keys_insert_index. apply not_elem_of_cons. split; congruence.
        -- rewrite keys_insert_index. constructor; [|exact Hall].
           eapply key_before_index; eassumption.
        -- apply IH; [exact Ho|]. apply get_None. exact Hk.
      * apply N.ltb_ge in Hlt. apply ordered_cons. split; [|split].
        -- cbn [map fst]. apply not_elem_of_cons. split; [congruence|exact Hk].
        -- apply (Hhead j); [reflexivity|lia].
        -- apply ordered_cons. tauto.
    + apply ordered_cons. split; [|split].
      * cbn [map fst]. apply not_elem_of_cons. split; [congruence|exact Hk].
      * cbn [map fst]. constructor; [apply key_before_plain; exact Hj|].
        eapply Forall_impl; [exact Hall|]. intros k'' Hb. cbn beta in Hb.
        unfold key_before in *. rewrite Hj in Hb.
        destruct (array_index k''); [contradiction|exact I].
      * apply ordered_cons. tauto.
Qed.

Lemma ordered_snoc o k v :
  ordered o -> get o k = None -> array_index k = None -> ordered (o ++ [(k, v)]).
Proof.
  intros Ho Hget Hi. apply get_None in Hget.
  induction o as [|[k' v'] o IH].
  - cbn. apply ordered_cons. repeat split; try constructor.
    apply not_elem_of_nil.
  - apply ordered_cons in Ho as (Hk' & Hall & Ho).
    cbn [map fst] in Hget. apply not_elem_of_cons in Hget as [Hne Hk].
    cbn [app]. apply ordered_cons. rewrite map_app, Forall_app. cbn [map fst].
    split; [|split; [split|]].
    + rewrite not_elem_of_app. split; [exact Hk'|].
      rewrite list_elem_of_singleton. congruence.
    + exact Hall.
    + constructor; [apply key_before_plain; exact Hi|constructor].
    + apply IH; assumption.
Qed.

Lemma ordered_set o k v : ordered o -> ordered (set o k v).
Proof.
  intros Ho. unfold set. destruct (get o k) eqn:Hget.
  - unfold ordered. rewrite keys_replace. exact Ho.
  - destruct (array_index k) as [i|] eqn:Hi.
    + apply ordered_insert_index; assumption.
    + apply ordered_snoc; assumption.
Qed.

Lemma ordered_set_all kvs : forall o, ordered o -> ordered (set_all o kvs).
Proof.
  induction kvs as [|[k v] kvs IH]; intros o Ho; [exact Ho|].
  cbn. apply IH, ordered_set, Ho.
Qed.

Lemma insert_index_last o i k v :
  Forall (fun k' => exists j, array_index k' = Some j /\ j < i) (map fst o) ->
  insert_index o i k v = o ++ [(k, v)].
Proof.
  induction o as [|[k' v'] o IH]; [reflexivity|].
  cbn [map fst]. intros H. inversion H as [|? ? (j & Hj & Hlt) Hrest]; subst.
  cbn [insert_index]. rewrite Hj. apply N.ltb_lt in Hlt. rewrite Hlt.
  cbn [app]. f_equal. apply IH, Hrest.
Qed.

Lemma ordered_app_l o o' : ordered (o ++ o') -> ordered o.
Proof.
  induction o as [|[k v] o IH]; [intros _; split; constructor|].
  cbn [app]. rewrite !ordered_cons, map_app, Forall_app, not_elem_of_app.
  intros ((Hk & _) & (Hall & _) & Ho). auto.
Qed.

Lemma ordered_before (acc : JSObject.t V) k v rest :
  ordered (acc ++ (k, v) :: rest) ->
  (k ∉ map fst acc) /\ Forall (fun k' => key_before k' k) (map fst acc).
Proof.
  induction acc as [|[k' v'] acc IH]; cbn [app map fst].
  - intros _. split; [apply not_elem_of_nil|constructor].
  - rewrite ordered_cons, map_app, Forall_app, not_elem_of_app.
    cbn [map fst]. intros ((_ & Hk') & (_ & Hall) & Ho).
    apply IH in Ho as [Hk Hb]. apply not_elem_of_cons in Hk' as [Hne _].
    inversion Hall; subst. split.
    + apply not_elem_of_cons. split; [congruence|exact Hk].
    + constructor; assumption.
Qed.

Lemma set_all_ordered_app rest : forall acc : JSObject.t V,
  ordered (acc ++ rest) -> set_all acc rest = acc ++ rest.
Proof.
  induction rest as [|[k v] rest IH]; intros acc Ho.
  - cbn. rewrite app_nil_r. reflexivity.
  - cbn [set_all fold_left fst snd].
    assert (Hset : set acc k v = acc ++ [(k, v)]).
    { apply ordered_before in Ho as [Hk Hb]. unfold set.
      apply get_None in Hk. rewrite Hk.
      destruct (array_index k) as [i|] eqn:Hi; [|reflexivity].
      apply insert_index_last. eapply Forall_impl; [exact Hb|].
      intros k' Hk'. cbn beta in Hk'. unfold key_before in Hk'.
      rewrite Hi in Hk'. destruct (array_index k') as [j|]; [|contradiction].
      exists j. auto. }
    rewrite Hset. change (fold_left _ rest ?a) with (set_all a rest).
    rewrite IH; rewrite <- app_assoc; [reflexivity|exact Ho].
Qed.

Lemma ordered_canonical o : ordered o <-> set_all [] o = o.
Proof.
  split.
  - intros Ho. apply (set_all_ordered_app o []). exact Ho.
  - intros <-. apply ordered_set_all. split; constructor.
Qed.

Lemma values_replace (P : V -> Prop) o k v :
  Forall (fun kv => P (snd kv)) o -> P v ->
  Forall (fun kv => P (snd kv)) (replace o k v).
Proof.
  intros Ho Hv. induction Ho as [|[k' v'] o Hx Ho IH]; cbn; [constructor|].
  destruct (eqb k' k); constructor; auto.
Qed.

Lemma values_insert_index (P : V -> Prop) o i k v :
  Forall (fun kv => P (snd kv)) o -> P v ->
  Forall (fun kv => P (snd kv)) (insert_index o i k v).
Proof.
  intros Ho Hv. induction Ho as [|[k' v'] o Hx Ho IH]; cbn;
    [constructor; [exact Hv|constructor]|].
  destruct (array_index k') as [j|]; [destruct (j <? i)|];
    repeat (constructor; auto).
Qed.

Lemma values_set (P : V -> Prop) o k v :
  Forall (fun kv => P (snd kv)) o -> P v ->
  Forall (fun kv => P (snd kv)) (set o k v).
Proof.
  intros Ho Hv. unfold set. destruct (get o k).
  - apply values_replace; assumption.
  - destruct (array_index k).
    + apply values_insert_index; assumption.
    + apply Forall_app. split; [exact Ho|]. constructor; [exact Hv|constructor].
Qed.

Lemma values_set_all (P : V -> Prop) kvs : forall o,
  Forall (fun kv => P (snd kv)) o -> Forall (fun kv => P (snd kv)) kvs ->
  Forall (fun kv => P (snd kv)) (set_all o kvs).
Proof.
  induction kvs as [|[k v] kvs IH]; intros o Ho Hkvs; [exact Ho|].
  inversion Hkvs; subst. cbn. apply IH; [|assumption].
  apply values_set; assumption.
Qed.

End Ordered.

End OrderFacts.

(** * What [JSON.parse] returns *)

Section ParseWf.
Import JSString JSON JSObject.

Lemma drop_zeros_split s : exists n, s = repeat 48 n ++ drop_zeros s.
Proof.
  induction s as [|c s [n IH]]; [exists 0%nat; reflexivity|].
  cbn. destruct (c =? 48) eqn:Hc.
  - apply N.eqb_eq in Hc. subst c. exists (S n). cbn. f_equal. exact IH.
  - exists 0%nat. reflexivity.
Qed.

Lemma drop_zeros_head s c r : drop_zeros s = c :: r -> c <> 48.
Proof.
  induction s as [|d s IH]; [discriminate|].
  cbn. destruct (d =? 48) eqn:Hd; [exact IH|].
  intros H; inversion H; subst. apply N.eqb_neq. exact Hd.
Qed.

Lemma drop_zeros_idem s : drop_zeros (drop_zeros s) = drop_zeros s.
Proof.
  destruct (drop_zeros s) as [|c r] eqn:H; [reflexivity|].
  apply drop_zeros_nonzero. eapply drop_zeros_head, H.
Qed.

Lemma digits_only_drop_zeros s : digits_only s -> digits_only (drop_zeros s).
Proof.
  induction 1 as [|c s Hc Hs IH]; [constructor|].
  cbn. destruct (c =? 48); [exact IH|constructor; assumption].
Qed.

Lemma digits_only_rev s : digits_only s -> digits_only (rev s).
Proof. intros H. apply Forall_rev. exact H. Qed.

Lemma of_parts_wf sg ip fp e :
  digits_only ip -> digits_only fp -> numeral_wf (Numeral.of_parts sg ip fp e).
Proof.
  intros Hip Hfp. unfold Numeral.of_parts.
  set (lead := drop_zeros (ip ++ fp)).
  assert (Hlead : digits_only lead)
    by (apply digits_only_drop_zeros, digits_only_app; assumption).
  destruct (rev (drop_zeros (rev lead))) as [|d ds] eqn:Hds.
  { repeat split; constructor. }
  assert (Hrev : drop_zeros (rev lead) = rev (d :: ds))
    by (rewrite <- Hds, rev_involutive; reflexivity).
  unfold numeral_wf. cbn [Numeral.digits Numeral.neg Numeral.point].
  split; [|split; [|split]].
  - rewrite <- Hds. apply digits_only_rev, digits_only_drop_zeros, digits_only_rev.
    exact Hlead.
  - destruct (drop_zeros_split (rev lead)) as [n Hn]. rewrite Hrev in Hn.
    apply (f_equal (@rev N)) in Hn.
    rewrite rev_involutive, rev_app_distr, rev_involutive, rev_zeros in Hn.
    apply drop_zeros_nonzero.
    assert (Hl : drop_zeros lead = lead) by apply drop_zeros_idem.
    rewrite Hn in Hl. cbn [app] in Hl. eapply drop_zeros_id_head, Hl.
  - rewrite <- Hrev. apply drop_zeros_idem.
  - discriminate.
Qed.

Lemma span_digits_digits s : forall d r,
  span_digits s = (d, r) -> digits_only d.
Proof.
  induction s as [|c s IH]; cbn; intros d r H.
  - inversion H. constructor.
  - destruct (is_digit c) eqn:Hc.
    + destruct (span_digits s) as [d' r'] eqn:Hs. inversion H; subst.
      constructor; [exact Hc|]. eapply IH. reflexivity.
    + inversion H. constructor.
Qed.

Lemma parse_digits1_digits s d r : parse_digits1 s = Some (d, r) -> digits_only d.
Proof.
  unfold parse_digits1. destruct (span_digits s) as [d' r'] eqn:Hs.
  apply span_digits_digits in Hs.
  destruct d'; [discriminate|]. intros H; inversion H; subst. exact Hs.
Qed.

Lemma parse_number_wf s x r : parse_number s = Parsed x r -> numeral_wf x.
Proof.
  assert (Hu : forall sg s, parse_unsigned sg s = Parsed x r -> numeral_wf x).
  { clear s. intros sg s. unfold parse_unsigned.
    destruct (parse_int_part s) as [[ip s1]|] eqn:Hip; [|discriminate].
    destruct (parse_fraction s1) as [[fp s2]|] eqn:Hfp; [|discriminate].
    destruct (parse_exponent s2) as [[e s3]|]; [|discriminate].
    intros H; inversion H; subst. apply of_parts_wf.
    - unfold parse_int_part in Hip. destruct s as [|c s']; [discriminate|].
      destruct (c =? 48).
      + inversion Hip; subst. constructor; [reflexivity|constructor].
      + eapply parse_digits1_digits, Hip.
    - unfold parse_fraction in Hfp. destruct s1 as [|c s'].
      + inversion Hfp. constructor.
      + destruct (c =? 46); [eapply parse_digits1_digits, Hfp|].
        inversion Hfp. constructor. }
  unfold parse_number. destruct s as [|c s']; [discriminate|].
  destruct (c =? 45); apply Hu.
Qed.

Lemma parse_literal_wf s v r : parse_literal s = Parsed v r -> json_wf v.
Proof.
  unfold parse_literal.
  repeat (match goal with
          | |- context [match ?x with Some _ => _ | None => _ end] => destruct x
          end);
    intros H; inversion H; exact I.
Qed.

Lemma wf_object o :
  json_wf (JObj o) <-> ordered o /\ Forall (fun kv => json_wf (snd kv)) o.
Proof. cbn [json_wf]. rewrite wf_members, ordered_canonical. reflexivity. Qed.

Lemma wf_array l : json_wf (JArr l) <-> Forall json_wf l.
Proof. cbn [json_wf]. apply wf_list. Qed.

Lemma wf_set_all o kvs :
  json_wf (JObj o) -> Forall (fun kv => json_wf (snd kv)) kvs ->
  json_wf (JObj (set_all o kvs)).
Proof.
  rewrite !wf_object. intros [Ho Hv] Hkvs. split.
  - apply ordered_set_all, Ho.
  - apply (values_set_all json_wf); assumption.
Qed.

(** What [JSON.parse] returns stands for a JavaScript value. *)
Lemma parse_value_wf fuel :
  (forall s v r, parse_value fuel s = Parsed v r -> json_wf v)
  /\ (forall s l r, parse_elements fuel s = Parsed l r -> Forall json_wf l)
  /\ (forall s o r, parse_members fuel s = Parsed o r ->
        Forall (fun kv => json_wf (snd kv)) o).
Proof.
  induction fuel as [|f (IHv & IHe & IHm)]; [repeat split; discriminate|].
  split; [|split].
  - intros s v r. cbn [parse_value].
    destruct (skip_ws s) as [|c s']; [discriminate|].
    destruct (c =? 123).
    { destruct (skip_ws s') as [|c' s'']; [discriminate|].
      destruct (c' =? 125); [intros H; inversion H; subst; split; constructor|].
      intros (a & Ha%IHm & ->)%pmap_parsed.
      apply wf_set_all; [split; constructor|exact Ha]. }
    destruct (c =? 91).
    { destruct (skip_ws s') as [|c' s'']; [discriminate|].
      destruct (c' =? 93); [intros H; inversion H; subst; exact I|].
      intros (a & Ha%IHe & ->)%pmap_parsed. apply wf_array. exact Ha. }
    destruct (c =? 34).
    { intros (a & _ & ->)%pmap_parsed. exact I. }
    destruct ((c =? 45) || JSString.is_digit c).
    { intros (a & Ha%parse_number_wf & ->)%pmap_parsed. exact Ha. }
    apply parse_literal_wf.
  - intros s l r. cbn [parse_elements].
    destruct (parse_value f s) as [v r0| |] eqn:Hv; try discriminate.
    apply IHv in Hv.
    destruct (skip_ws r0) as [|c r']; [discriminate|].
    destruct (c =? 44).
    { intros (a & Ha%IHe & ->)%pmap_parsed. constructor; assumption. }
    destruct (c =? 93); [|discriminate].
    intros H; inversion H; subst. constructor; [exact Hv|constructor].
  - intros s o r. cbn [parse_members].
    destruct (skip_ws s) as [|q s1]; [discriminate|].
    destruct (q =? 34); [|discriminate].
    destruct (parse_chars s1) as [k s2| |]; try discriminate.
    destruct (skip_ws s2) as [|c s3]; [discriminate|].
    destruct (c =? 58); [|discriminate].
    destruct (parse_value f s3) as [v r0| |] eqn:Hv; try discriminate.
    apply IHv in Hv.
    destruct (skip_ws r0) as [|d r']; [discriminate|].
    destruct (d =? 44).
    { intros (a & Ha%IHm & ->)%pmap_parsed. constructor; assumption. }
    destruct (d =? 125); [|discriminate].
    intros H; inversion H; subst. constructor; [exact Hv|constructor].
Qed.

Lemma parse_wf text v : JSON.parse text = Some v -> json_wf v.
Proof.
  unfold parse.
  destruct (parse_value (fuel_for text) text) as [v' r| |] eqn:Hv; try discriminate.
  destruct (skip_ws r); [|discriminate].
  intros H; inversion H; subst. eapply parse_value_wf, Hv.
Qed.

Lemma indexed_wf {A} (f : A -> json) l : forall i,
  Forall (fun x => json_wf (f x)) l ->
  Forall (fun kv => json_wf (snd kv)) (JSValue.indexed f i l).
Proof.
  induction l as [|x l IH]; intros i H; cbn; [constructor|].
  inversion H; subst. constructor; [assumption|]. apply IH. assumption.
Qed.

Lemma own_properties_wf v :
  json_wf v -> Forall (fun kv => json_wf (snd kv)) (JSValue.own_properties (Some v)).
Proof.
  destruct v; cbn [JSValue.own_properties]; try (intros _; constructor).
  - intros _. apply indexed_wf. apply Forall_forall. intros; exact I.
  - intros H%wf_array. apply indexed_wf. exact H.
  - intros H%wf_object. apply H.
Qed.

Lemma spread_wf o v :
  json_wf (JObj o) -> json_wf v -> json_wf (JObj (JSValue.spread o (Some v))).
Proof.
  intros Ho Hv. apply wf_set_all; [exact Ho|]. apply own_properties_wf, Hv.
Qed.

End ParseWf.

(** * Merging over an object twice *)

Section MergeFacts.
Import JSString JSObject.
Context {V : Type}.
Implicit Types (o d : JSObject.t V).

Lemma set_all_app o (a b : list (jsstring * V)) :
  set_all o (a ++ b) = set_all (set_all o a) b.
Proof. unfold set_all. apply fold_left_app. Qed.

Lemma get_app_l (a b : JSObject.t V) k x :
  get a k = Some x -> get (a ++ b) k = Some x.
Proof.
  induction a as [|[k' v'] a IH]; [discriminate|].
  cbn. destruct (eqb k' k); [auto|exact IH].
Qed.

Lemma get_app_r (a b : JSObject.t V) k :
  get a k = None -> get (a ++ b) k = get b k.
Proof.
  induction a as [|[k' v'] a IH]; [reflexivity|].
  cbn. destruct (eqb k' k); [discriminate|exact IH].
Qed.

Lemma replace_app_l (a b : JSObject.t V) k v x :
  get a k = Some x -> replace (a ++ b) k v = replace a k v ++ b.
Proof.
  induction a as [|[k' v'] a IH]; [discriminate|].
  cbn. destruct (eqb k' k); [reflexivity|]. intros H. cbn. f_equal. auto.
Qed.

Lemma replace_app_r (a b : JSObject.t V) k v :
  get a k = None -> replace (a ++ b) k v = a ++ replace b k v.
Proof.
  induction a as [|[k' v'] a IH]; [reflexivity|].
  cbn. destruct (eqb k' k); [discriminate|]. intros H. cbn. f_equal. auto.
Qed.

Lemma insert_index_app (a b : JSObject.t V) i k v :
  insert_index (a ++ b) i k v = insert_index a i k v ++ b
  \/ insert_index (a ++ b) i k v = a ++ insert_index b i k v.
Proof.
  induction a as [|[k' v'] a IH]; [right; reflexivity|].
  cbn. destruct (array_index k') as [j|]; [|left; reflexivity].
  destruct (j <? i); [|left; reflexivity].
  destruct IH as [-> | ->]; [left|right]; reflexivity.
Qed.

Lemma grown_set d o k v :
  Forall (fun k => array_index k = None) (map fst d) ->
  grown_from d o -> grown_from d (set o k v).
Proof.
  intros Hd (idx & d' & extra & -> & Hk & Hidx). unfold set.
  destruct (get (idx ++ d' ++ extra) k) as [x|] eqn:Hget.
  - destruct (get idx k) as [y|] eqn:Hi.
    { rewrite (replace_app_l _ _ _ _ _ Hi).
      exists (replace idx k v), d', extra. rewrite keys_replace. auto. }
    rewrite (replace_app_r _ _ _ _ Hi).
    destruct (get d' k) as [y|] eqn:Hd'.
    { rewrite (replace_app_l _ _ _ _ _ Hd').
      exists idx, (replace d' k v), extra. rewrite keys_replace. auto. }
    rewrite (replace_app_r _ _ _ _ Hd').
    exists idx, d', (replace extra k v). auto.
  - destruct (array_index k) as [i|] eqn:Hi.
    + destruct (insert_index_app idx (d' ++ extra) i k v) as [-> | ->].
      * exists (insert_index idx i k v), d', extra.
        split; [reflexivity|]. split; [exact Hk|].
        rewrite keys_insert_index. constructor; [congruence|exact Hidx].
      * destruct d' as [|[kd vd] d'].
        -- exists idx, [], (insert_index extra i k v). auto.
        -- assert (Hkd : array_index kd = None).
           { rewrite <- Hk in Hd. cbn in Hd. inversion Hd; assumption. }
           cbn [app insert_index]. rewrite Hkd.
           exists (idx ++ [(k, v)]), ((kd, vd) :: d'), extra.
           split; [rewrite <- app_assoc; reflexivity|]. split; [exact Hk|].
           rewrite map_app, Forall_app. split; [exact Hidx|].
           constructor; [cbn; congruence|constructor].
    + exists idx, d', (extra ++ [(k, v)]).
      split; [rewrite <- !app_assoc; reflexivity|]. auto.
Qed.

Lemma grown_set_all d kvs : forall o,
  Forall (fun k => array_index k = None) (map fst d) ->
  grown_from d o -> grown_from d (set_all o kvs).
Proof.
  induction kvs as [|[k v] kvs IH]; intros o Hd Ho; [exact Ho|].
  cbn. apply IH; [exact Hd|]. apply grown_set; assumption.
Qed.

(** Assigning array indices in ascending order to [d] puts them in front. *)
Lemma set_all_indices d idx :
  Forall (fun k => array_index k = None) (map fst d) ->
  Forall (fun k => array_index k <> None) (map fst idx) ->
  ordered idx ->
  set_all d idx = idx ++ d.
Proof.
  intros Hd. induction idx as [|[k v] idx IH] using rev_ind; [reflexivity|].
  rewrite map_app, Forall_app. intros [Hidx Hk] Ho.
  rewrite set_all_app, IH by (eauto using ordered_app_l).
  cbn [set_all fold_left fst snd].
  cbn in Hk. inversion Hk as [|? ? Hi _]; subst.
  destruct (array_index k) as [i|] eqn:Hik; [|congruence].
  apply ordered_before in Ho as [Hfresh Hb].
  assert (Hget : get (idx ++ d) k = None).
  { apply get_None. rewrite map_app, not_elem_of_app. split; [exact Hfresh|].
    intros Hin. rewrite Forall_forall in Hd. apply Hd in Hin. congruence. }
  unfold set. rewrite Hget, Hik.
  destruct (insert_index_app idx d i k v) as [E | E].
  - rewrite E, insert_index_last, <- app_assoc; [reflexivity|].
    eapply Forall_impl; [exact Hb|]. intros k' Hk'. cbn beta in Hk'.
    unfold key_before in Hk'. rewrite Hik in Hk'.
    destruct (array_index k') as [j|]; [|contradiction]. exists j. auto.
  - rewrite E, <- app_assoc. f_equal.
    destruct d as [|[kd vd] d]; [reflexivity|].
    cbn in Hd. inversion Hd as [|? ? Hkd _]; subst.
    cbn [insert_index]. rewrite Hkd. reflexivity.
Qed.

(** Assigning the keys of [d], in their order, replaces its values. *)
Lemma set_all_same_keys d : forall d' (pre : JSObject.t V),
  map fst d' = map fst d -> NoDup (map fst d) ->
  Forall (fun k => k ∉ map fst pre) (map fst d) ->
  set_all (pre ++ d) d' = pre ++ d'.
Proof.
  induction d as [|[k v] d IH]; intros d' pre Hk Hnd Hpre.
  - destruct d'; [reflexivity|discriminate].
  - destruct d' as [|[k' v'] d']; [discriminate|].
    cbn in Hk. injection Hk as -> Hk.
    cbn in Hnd. apply NoDup_cons in Hnd as [Hfresh Hnd].
    cbn in Hpre. inversion Hpre as [|? ? Hkpre Hpre']; subst.
    cbn [set_all fold_left fst snd]. unfold set.
    apply get_None in Hkpre.
    rewrite (get_app_r _ _ _ Hkpre). cbn [get]. rewrite eqb_refl.
    rewrite (replace_app_r _ _ _ _ Hkpre). cbn [replace]. rewrite eqb_refl.
    change (pre ++ (k, v') :: d) with (pre ++ [(k, v')] ++ d).
    rewrite app_assoc.
    change (fold_left _ d' ?a) with (set_all a d').
    rewrite IH; [rewrite <- app_assoc; reflexivity|exact Hk|exact Hnd|].
    rewrite Forall_forall in Hpre'. apply Forall_forall. intros x Hx.
    rewrite map_app, not_elem_of_app. split; [apply Hpre', Hx|].
    cbn. rewrite list_elem_of_singleton. intros ->. contradiction.
Qed.

(** Merging over [d] what was merged over [d] changes nothing. *)
Lemma set_all_idempotent d kvs :
  Forall (fun k => array_index k = None) (map fst d) ->
  NoDup (map fst d) ->
  set_all d (set_all d kvs) = set_all d kvs.
Proof.
  intros Hd Hnd.
  assert (Hord : ordered (set_all d kvs)).
  { apply ordered_set_all. split; [exact Hnd|].
    clear Hnd. induction (map fst d) as [|k ks IH]; [constructor|].
    inversion Hd; subst. constructor; [auto|].
    eapply Forall_impl; [eassumption|]. intros k' Hk'.
    apply key_before_plain, Hk'. }
  destruct (grown_set_all d kvs d Hd) as (idx & d' & extra & E & Hk & Hidx).
  { exists [], d, []. rewrite app_nil_r. auto. }
  rewrite E in Hord |- *.
  rewrite !set_all_app.
  rewrite (set_all_indices d idx); [|exact Hd|exact Hidx|eauto using ordered_app_l].
  rewrite (set_all_same_keys d d' idx); [|exact Hk|exact Hnd|].
  - rewrite set_all_ordered_app; rewrite <- app_assoc; [reflexivity|exact Hord].
  - rewrite Forall_forall in Hd, Hidx. apply Forall_forall. intros x Hx Hin.
    apply Hidx in Hin. apply Hd in Hx. contradiction.
Qed.

End MergeFacts.

(** * Saving, resetting, exporting and importing *)

Section StoreExtras.
Import JSString JSON storageService Spec.

Lemma stringify_nonempty v : json_wf v -> exists c s, JSON.stringify v = c :: s.
Proof.
  intros Hv. destruct (serialize_head [] [] v Hv) as (c & s & E & _).
  exists c, s. exact E.
Qed.

Lemma default_settings_keys :
  Forall (fun k => array_index k = None) (map fst default_settings)
  /\ NoDup (map fst default_settings).
Proof.
  split; [repeat constructor|].
  apply (bool_decide_unpack _). vm_compute. reflexivity.
Qed.

Lemma default_settings_wf : json_wf (JObj default_settings).
Proof. vm_compute. repeat split; repeat constructor; discriminate. Qed.

Lemma spread_default_idempotent v :
  JSValue.spread default_settings
    (Some (JObj (JSValue.spread default_settings v)))
  = JSValue.spread default_settings v.
Proof.
  unfold JSValue.spread at 1. cbn [JSValue.own_properties].
  apply set_all_idempotent; apply default_settings_keys.
Qed.

Lemma stored_wf ls key v : stored ls key = Some v -> json_wf v.
Proof. unfold stored. destruct (ls !! key); [apply parse_wf|discriminate]. Qed.

Lemma merged_settings_wf ls : json_wf (merged_settings ls).
Proof.
  unfold merged_settings. destruct (stored ls SETTINGS) as [v|] eqn:Hs.
  - apply spread_wf; [apply default_settings_wf|]. eapply stored_wf, Hs.
  - apply default_settings_wf.
Qed.

Lemma parse_or_empty_wf data v : parse_or_empty data = Ret v -> json_wf v.
Proof.
  unfold parse_or_empty, JSON_parse. destruct data as [[|c d]|].
  - intros H; inversion H. exact I.
  - destruct (parse (c :: d)) eqn:Hp; [|discriminate].
    intros H; inversion H; subst. eapply parse_wf, Hp.
  - intros H; inversion H. exact I.
Qed.

Lemma parse_or_empty_saved key v ls :
  json_wf v ->
  parse_or_empty (getItem (setItem key (JSON.stringify v) ls) key) = Ret v.
Proof.
  intros Hv. unfold getItem, setItem. rewrite lookup_insert_eq.
  destruct (stringify_nonempty v Hv) as (c & s & E).
  unfold parse_or_empty, JSON_parse. rewrite E, <- E, parse_stringify by exact Hv.
  reflexivity.
Qed.


Lemma exportData_eq now ls :
  exportData now ls
  = match parse_or_empty (ls !! NOTES) with
    | Throw e => Throw e
    | Ret notes =>
        match parse_or_empty (ls !! TRANSACTIONS) with
        | Throw e => Throw e
        | Ret transactions =>
            Ret (stringify_pretty
                   (backup notes transactions (merged_settings ls) now))
        end
    end.
Proof.
  unfold exportData, getItem.
  destruct (parse_or_empty (ls !! NOTES)); [|reflexivity].
  destruct (parse_or_empty (ls !! TRANSACTIONS)); [|reflexivity].
  unfold merged_settings, stored, JSON_parse, backup.
  destruct (ls !! SETTINGS) as [[|c d]|]; try reflexivity.
  destruct (parse (c :: d)); reflexivity.
Qed.

Lemma backup_wf n t m now :
  json_wf n -> json_wf t -> json_wf m -> json_wf (backup n t m now).
Proof.
  intros Hn Ht Hm. cbn [json_wf backup fold_right].
  split; [reflexivity|]. tauto.
Qed.

Lemma keys_distinct :
  NOTES <> TRANSACTIONS /\ NOTES <> SETTINGS /\ TRANSACTIONS <> SETTINGS.
Proof. repeat split; discriminate. Qed.

(** What the round trip through a backup writes. *)
Lemma roundtrip_eq now ls n t :
  parse_or_empty (ls !! NOTES) = Ret n ->
  parse_or_empty (ls !! TRANSACTIONS) = Ret t ->
  importData (stringify_pretty (backup n t (merged_settings ls) now)) ls
  = if JSValue.isArray (Some n) || JSValue.isArray (Some t)
    then (true,
          <[SETTINGS := JSON.stringify (merged_settings ls)]>
            (overwrite_if_truthy TRANSACTIONS (Some t) JSON.stringify
               (overwrite_if_truthy NOTES (Some n) JSON.stringify ls)))
    else (false, ls).
Proof.
  intros Hn Ht. rewrite importData_eq.
  rewrite parse_stringify_pretty
    by (apply backup_wf; eauto using parse_or_empty_wf, merged_settings_wf).
  change (field (backup n t (merged_settings ls) now) (str "notes"))
    with (Some n).
  change (field (backup n t (merged_settings ls) now) (str "transactions"))
    with (Some t).
  change (field (backup n t (merged_settings ls) now) (str "settings"))
    with (Some (merged_settings ls)).
  cbv zeta. destruct (JSValue.isArray (Some n) || JSValue.isArray (Some t));
    [|reflexivity].
  f_equal. unfold merged_settings at 1.
  cbn [overwrite_if_truthy JSValue.truthy].
  unfold merged_settings. rewrite spread_default_idempotent. reflexivity.
Qed.

Lemma overwrite_lookup_ne (key key' : jsstring) (v : option json)
    (print : json -> jsstring) (ls : storage) :
  key <> key' -> overwrite_if_truthy key v print ls !! key' = ls !! key'.
Proof.
  intros Hne. unfold overwrite_if_truthy. destruct v; [|reflexivity].
  destruct (JSValue.truthy _); [|reflexivity]. apply lookup_insert_ne, Hne.
Qed.

(** A key that was rewritten from its own value still reads as that
    value. *)
Lemma overwrite_reads_back (key : jsstring) (v : json) (ls : storage) :
  parse_or_empty (ls !! key) = Ret v ->
  parse_or_empty (overwrite_if_truthy key (Some v) JSON.stringify ls !! key)
  = Ret v.
Proof.
  intros Hv. unfold overwrite_if_truthy.
  destruct (JSValue.truthy (Some v)); [|exact Hv].
  apply parse_or_empty_saved. eapply parse_or_empty_wf, Hv.
Qed.

Lemma overwrite_id (key : jsstring) (v : json) (ls : storage) :
  (JSValue.truthy (Some v) = true -> ls !! key = Some (JSON.stringify v)) ->
  overwrite_if_truthy key (Some v) JSON.stringify ls = ls.
Proof.
  intros H. unfold overwrite_if_truthy.
  destruct (JSValue.truthy (Some v)); [|reflexivity].
  apply insert_id, H. reflexivity.
Qed.

Lemma getSettings_saved (v : json) (ls : storage) :
  json_wf v -> ls !! SETTINGS = Some (JSON.stringify v) -> getSettings ls = Ret v.
Proof.
  intros Hv Hs. unfold getSettings, getItem, JSON_parse. rewrite Hs.
  destruct (stringify_nonempty v Hv) as (c & s & E).
  rewrite E, <- E, parse_stringify by exact Hv. reflexivity.
Qed.

End StoreExtras.

Section StoreTheorems.
Import JSString JSON storageService Spec.



(** X2.  Saving one of notes, transactions and settings leaves what the
    getters of the other two return unchanged. *)
Theorem save_keeps_other_collections v ls :
  (getTransactions (saveNotes v ls) = getTransactions ls
   /\ getSettings (saveNotes v ls) = getSettings ls)
  /\ (getNotes (saveTransactions v ls) = getNotes ls
      /\ getSettings (saveTransactions v ls) = getSettings ls)
  /\ (getNotes (saveSettings v ls) = getNotes ls
      /\ getTransactions (saveSettings v ls) = getTransactions ls).
Proof.
  unfold getNotes, getTransactions, getSettings, saveNotes, saveTransactions,
    saveSettings, getItem, setItem.
  rewrite !lookup_insert_ne by discriminate. tauto.
Qed.

(** X3.  After [resetApplication], whatever was stored before, [getNotes]
    and [getTransactions] return the empty array, [getSettings] returns the
    default settings, and no key but the Settings key is left. *)
Theorem resetApplication_restores_defaults ls :
  getNotes (resetApplication ls) = Ret (JArr [])
  /\ getTransactions (resetApplication ls) = Ret (JArr [])
  /\ getSettings (resetApplication ls) = Ret (JObj default_settings)
  /\ forall key, key <> SETTINGS -> resetApplication ls !! key = None.
Proof.
  split; [reflexivity|]. split; [reflexivity|]. split.
  - apply getSettings_saved; [apply default_settings_wf|].
    apply lookup_insert_eq.
  - intros key Hk. unfold resetApplication, setItem.
    rewrite lookup_insert_ne by congruence. apply lookup_empty.
Qed.

(** X4.  [exportData] throws exactly when the Notes key or the Transactions
    key holds a text that is not empty and is not JSON; the text under the
    Settings key never makes it throw. *)
Theorem exportData_throws_iff now ls :
  (exists e, exportData now ls = Throw e)
  <-> unreadable ls NOTES \/ unreadable ls TRANSACTIONS.
Proof.
  assert (H : forall key,
             (exists e, parse_or_empty (ls !! key) = Throw e)
             <-> unreadable ls key).
  { intros key. unfold unreadable, parse_or_empty, JSON_parse.
    destruct (ls !! key) as [[|c d]|].
    - split; [intros [e He]; discriminate|intros (? & ? & ? & _); discriminate].
    - destruct (parse (c :: d)) eqn:Hp.
      + split; [intros [e He]; discriminate|].
        intros (? & ? & E & Hn). inversion E; subst. congruence.
      + split; [eauto|]. eauto.
    - split; [intros [e He]; discriminate|intros (? & ? & ? & _); discriminate]. }
  rewrite exportData_eq, <- !H.
  destruct (parse_or_empty (ls !! NOTES)) as [n|e].
  - destruct (parse_or_empty (ls !! TRANSACTIONS)) as [t|e].
    + split; [intros [e He]; discriminate|].
      intros [[e He]|[e He]]; discriminate.
    + split; eauto.
  - split; eauto.
Qed.



End StoreTheorems.

Section ImportTheorems.
Import JSString JSON storageService Spec.


(** X6.  Importing the same text a second time gives the same result and
    leaves [localStorage] as the first import left it. *)
Theorem importData_twice text ls :
  importData text (snd (importData text ls)) = importData text ls.
Proof.
  rewrite !importData_eq. destruct (parse text) as [data|]; [|reflexivity].
  cbv zeta.
  destruct (JSValue.isArray (field data (str "notes"))
            || JSValue.isArray (field data (str "transactions")));
    [|reflexivity].
  cbn [snd]. f_equal. unfold overwrite_if_truthy.
  destruct (field data (str "notes")) as [n|],
           (field data (str "transactions")) as [t|],
           (field data (str "settings")) as [s|];
    repeat match goal with
           | |- context [if ?b then _ else _] => destruct b
           end;
    try reflexivity;
    apply map_eq; intros i; rewrite ?lookup_insert;
    repeat case_decide; reflexivity.
Qed.

(** X7.  [importData] touches no key besides the three of the
    application: any other key holds afterwards what it held before. *)
Theorem importData_keeps_other_keys text ls key :
  key <> NOTES -> key <> TRANSACTIONS -> key <> SETTINGS ->
  snd (importData text ls) !! key = ls !! key.
Proof.
  intros H1 H2 H3. rewrite importData_eq.
  destruct (parse text) as [data|]; [|reflexivity]. cbv zeta.
  destruct (_ || _); [|reflexivity]. cbn [snd].
  rewrite !overwrite_lookup_ne by congruence. reflexivity.
Qed.

Lemma importData_keeps_other_keys_example :
  snd (importData (json_text "{'notes':[]}") {[ str "theme" := str "dark" ]})
    !! str "theme"
  = Some (str "dark").
Proof.
  rewrite (importData_keeps_other_keys _ _ (str "theme"));
    [reflexivity|discriminate..].
Defined.






(** X10.  After one successful round trip of [exportData] and
    [importData], a second round trip succeeds and leaves [localStorage]
    exactly as it is. *)
Theorem export_import_settles now now' ls text :
  exportData now ls = Ret text ->
  fst (importData text ls) = true ->
  exists text',
    exportData now' (snd (importData text ls)) = Ret text'
    /\ importData text' (snd (importData text ls))
       = (true, snd (importData text ls)).
Proof.
  rewrite exportData_eq.
  destruct (parse_or_empty (ls !! NOTES)) as [n|] eqn:Hn; [|discriminate].
  destruct (parse_or_empty (ls !! TRANSACTIONS)) as [t|] eqn:Ht; [|discriminate].
  intros H; inversion H; subst text; clear H.
  rewrite (roundtrip_eq now ls n t Hn Ht).
  destruct (JSValue.isArray (Some n) || JSValue.isArray (Some t)) eqn:Harr;
    [|discriminate].
  intros _. cbn [snd].
  destruct keys_distinct as (Hnt & Hns & Hts).
  set (ls1 := overwrite_if_truthy NOTES (Some n) stringify ls).
  set (ls2 := overwrite_if_truthy TRANSACTIONS (Some t) stringify ls1).
  set (ls' := <[SETTINGS := stringify (merged_settings ls)]> ls2).
  assert (Hn' : ls' !! NOTES = ls1 !! NOTES).
  { unfold ls', ls2.
    rewrite lookup_insert_ne, overwrite_lookup_ne by congruence. reflexivity. }
  assert (Ht' : ls' !! TRANSACTIONS = ls2 !! TRANSACTIONS).
  { unfold ls'. rewrite lookup_insert_ne by congruence. reflexivity. }
  assert (Ht1 : ls1 !! TRANSACTIONS = ls !! TRANSACTIONS).
  { unfold ls1. rewrite overwrite_lookup_ne by congruence. reflexivity. }
  assert (Hrn : parse_or_empty (ls' !! NOTES) = Ret n).
  { rewrite Hn'. apply overwrite_reads_back, Hn. }
  assert (Hrt : parse_or_empty (ls' !! TRANSACTIONS) = Ret t).
  { rewrite Ht'. apply overwrite_reads_back. rewrite Ht1. exact Ht. }
  assert (Hm : merged_settings ls' = merged_settings ls).
  { unfold merged_settings at 1, stored. unfold ls' at 1.
    rewrite lookup_insert_eq, parse_stringify by apply merged_settings_wf.
    unfold merged_settings. rewrite spread_default_idempotent. reflexivity. }
  exists (stringify_pretty (backup n t (merged_settings ls') now')).
  split; [rewrite exportData_eq, Hrn, Hrt; reflexivity|].
  rewrite (roundtrip_eq now' ls' n t Hrn Hrt), Harr, Hm. f_equal.
  rewrite (overwrite_id NOTES n ls').
  2:{ intros Htr. rewrite Hn'. unfold ls1, overwrite_if_truthy.
      rewrite Htr. apply lookup_insert_eq. }
  rewrite (overwrite_id TRANSACTIONS t ls').
  2:{ intros Htr. rewrite Ht'. unfold ls2, overwrite_if_truthy.
      rewrite Htr. apply lookup_insert_eq. }
  apply insert_id. unfold ls'. apply lookup_insert_eq.
Qed.

Lemma export_import_settles_partial_settings :
  let ls : storage :=
    {[ NOTES := str "[1]"; SETTINGS := json_text "{'headerQuote':'x'}" ]} in
  exists text text',
    exportData (str "2024-01-01T00:00:00.000Z") ls = Ret text
    /\ exportData (str "2024-01-02T00:00:00.000Z") (snd (importData text ls))
       = Ret text'
    /\ importData text' (snd (importData text ls))
       = (true, snd (importData text ls)).
Proof.
  intros ls. eexists.
  match goal with
  | |- exists text', exportData _ _ = Ret ?text /\ _ =>
      assert (He : exportData (str "2024-01-01T00:00:00.000Z") ls = Ret text)
        by (vm_compute; reflexivity);
      assert (Hi : fst (importData text ls) = true)
        by (vm_compute; reflexivity);
      destruct (export_import_settles (str "2024-01-01T00:00:00.000Z")
                  (str "2024-01-02T00:00:00.000Z") ls text He Hi)
        as (text' & He' & Hi')
  end.
  exists text'. split; [exact He|]. split; [exact He'|exact Hi'].
Defined.

End ImportTheorems.

(** * Saving and deleting transactions *)

Section LedgerExtras.
Import JSString LedgerView Spec.

Lemma handleSave_eq uuid now v :
  ~ rejected v ->
  handleSave uuid now v
  = let description :=
      match trim (form_desc v) with [] => form_category v | d => d end in
    let saved i ts :=
      {| id := i; amount := parseFloat (form_amount v); type := form_type v;
         category := form_category v; description := description;
         date := form_date v; timestamp := ts |} in
    {| transactions :=
         match editingId v with
         | Some (c :: e) =>
             map (fun t => if JSString.eqb (id t) (c :: e)
                           then saved (id t) (timestamp t) else t)
                 (transactions v)
         | _ => saved uuid now :: transactions v
         end;
       isModalOpen := false; editingId := None; form_amount := [];
       form_desc := []; form_type := form_type v;
       form_category := form_category v; form_date := form_date v;
       alerts := alerts v |}.
Proof.
  unfold rejected, handleSave. intros Hn.
  destruct (form_amount v) as [|c a] eqn:Ha; [tauto|].
  destruct (Number.leb (parseFloat (c :: a)) Number.zero) eqn:Hle; [tauto|].
  reflexivity.
Qed.

Lemma filter_all {A} (P : A -> Prop) `{forall x, Decision (P x)} (l : list A) :
  Forall P l -> filter P l = l.
Proof.
  induction 1 as [|x l Hx _ IH]; [reflexivity|].
  rewrite filter_cons_True by exact Hx. f_equal. exact IH.
Qed.

(** X11.  Adding a transaction with [handleSave] under an id that no
    listed transaction has, and then deleting that id with [confirmDelete],
    gives back the list as it was. *)
Theorem handleSave_then_confirmDelete uuid now v :
  ~ rejected v ->
  editingId v = None ->
  uuid <> [] ->
  Forall (fun t => id t <> uuid) (transactions v) ->
  transactions (fst (confirmDelete (Some uuid) (handleSave uuid now v)))
  = transactions v.
Proof.
  intros Hacc He Hu Hfresh. rewrite (handleSave_eq _ _ _ Hacc), He.
  destruct uuid as [|c d]; [congruence|].
  unfold confirmDelete. cbn [fst transactions].
  rewrite filter_cons_False by (cbn; tauto).
  apply filter_all, Hfresh.
Qed.

Lemma handleSave_then_confirmDelete_example :
  let v := {| transactions := [sample (str "food")]; isModalOpen := true;
              editingId := None; form_amount := str "12.5"; form_desc := [];
              form_type := Expense; form_category := str "food";
              form_date := str "2024-01-02"; alerts := [] |} in
  transactions (fst (confirmDelete (Some (str "u2"))
                       (handleSave (str "u2") 5 v)))
  = [sample (str "food")].
Proof.
  intros v. apply (handleSave_then_confirmDelete (str "u2") 5 v).
  - unfold rejected. vm_compute. intros [H|H]; discriminate.
  - reflexivity.
  - discriminate.
  - repeat constructor. discriminate.
Defined.



(** X13.  [handleSave] never brings an amount that is zero or negative
    into the list: if no listed amount is [<= 0], none is afterwards. *)
Theorem handleSave_never_stores_amount_le_zero uuid now v :
  no_amount_le_zero (transactions v) ->
  no_amount_le_zero (transactions (handleSave uuid now v)).
Proof.
  intros Hinv. unfold no_amount_le_zero in *.
  destruct (form_amount v) as [|a0 a] eqn:Ha.
  { unfold handleSave. rewrite Ha. exact Hinv. }
  destruct (Number.leb (parseFloat (a0 :: a)) Number.zero) eqn:Hle.
  { unfold handleSave. rewrite Ha, Hle. exact Hinv. }
  rewrite handleSave_eq by (unfold rejected; rewrite Ha, Hle; intros [?|?]; discriminate).
  cbn. rewrite Ha. destruct (editingId v) as [[|c e]|].
  - constructor; [exact Hle|exact Hinv].
  - apply Forall_map. eapply Forall_impl; [exact Hinv|]. intros t Ht.
    cbn beta. destruct (eqb (id t) (c :: e)); [exact Hle|exact Ht].
  - constructor; [exact Hle|exact Hinv].
Qed.

Lemma handleSave_never_stores_amount_le_zero_example :
  let v := {| transactions := [sample (str "food")]; isModalOpen := true;
              editingId := None; form_amount := str "-3"; form_desc := [];
              form_type := Expense; form_category := str "food";
              form_date := str "2024-01-02"; alerts := [] |} in
  no_amount_le_zero (transactions (handleSave (str "u2") 5 v)).
Proof.
  intros v. apply handleSave_never_stores_amount_le_zero.
  repeat constructor.
Defined.

(** X14.  [confirmDelete] never leaves the edit form pointing at a
    transaction that is gone: if the id being edited is in the list before,
    then afterwards it is in the list or no id is being edited. *)
Theorem confirmDelete_keeps_editing_listed deleteId v :
  editing_listed v -> editing_listed (fst (confirmDelete deleteId v)).
Proof.
  intros Hv. destruct deleteId as [[|c d]|]; try exact Hv.
  unfold editing_listed. cbn. intros e He.
  destruct (editingId v) as [e0|] eqn:He0; [|discriminate].
  unfold eqb in He. case_bool_decide as Hne; [discriminate|].
  inversion He; subst e0. specialize (Hv e He0).
  apply list_elem_of_fmap in Hv as (t & -> & Ht).
  apply list_elem_of_fmap. exists t. split; [reflexivity|].
  apply list_elem_of_filter. split; [exact Hne|exact Ht].
Qed.

Lemma confirmDelete_keeps_editing_listed_example :
  let v := {| transactions := [sample (str "food")]; isModalOpen := true;
              editingId := Some (str "1"); form_amount := str "1";
              form_desc := []; form_type := Expense;
              form_category := str "food"; form_date := str "2024-01-01";
              alerts := [] |} in
  editing_listed (fst (confirmDelete (Some (str "1")) v)).
Proof.
  intros v. apply confirmDelete_keeps_editing_listed.
  intros e He. inversion He; subst. apply list_elem_of_here.
Defined.

(** X15.  [dailyStats] depends only on the transactions of the chosen
    date; when there is none, both totals and the volume are 0 and the
    breakdown and the list are empty. *)
Theorem dailyStats_of_other_days ts d :
  dailyStats ts d = dailyStats (filter (fun t => date t = d) ts) d
  /\ (Forall (fun t => date t <> d) ts ->
      dailyStats ts d
      = {| day_income := Number.zero; day_expense := Number.zero;
           totalVolume := Number.zero; pieData := [];
           dayTransactions := [] |}).
Proof.
  assert (Hf : filter (fun t => date t = d) (filter (fun t => date t = d) ts)
               = filter (fun t => date t = d) ts).
  { apply filter_all, Forall_forall. intros t Ht.
    now apply list_elem_of_filter in Ht as [Ht _]. }
  split.
  - unfold dailyStats. rewrite Hf. reflexivity.
  - intros Hnone. clear Hf. unfold dailyStats.
    replace (filter (fun t => date t = d) ts) with (@nil Transaction);
      [reflexivity|].
    symmetry. induction Hnone as [|t ts Ht _ IH]; [reflexivity|].
    rewrite filter_cons_False by exact Ht. exact IH.
Qed.


End LedgerExtras.

(** ** The main list of the ledger *)

Section SortedTransactions.
Import JSString LedgerView Spec.

Lemma after_by_date_then_time lc a b :
  after (by_date_then_time lc) a b = true
  <-> (date a = date b /\ (timestamp a < timestamp b)%Z)
      \/ (date a <> date b /\ sorts_after lc (date b) (date a)).
Proof.
  unfold after, by_date_then_time, sorts_after, eqb.
  case_bool_decide as Hd; cbn [negb].
  - fold (by_time_desc a b). fold (after by_time_desc a b).
    rewrite after_by_time. tauto.
  - tauto.
Qed.

(** X17.  [sortedTransactions] holds the same transactions; when
    [localeCompare] orders the dates that occur strictly and totally, they
    stand with later dates first and, on one date, later timestamps
    first. *)
Theorem sortedTransactions_newer_first lc ts :
  orders_dates lc (map date ts) ->
  Permutation (sortedTransactions lc ts) ts
  /\ StronglySorted (newer_first lc) (sortedTransactions lc ts).
Proof.
  intros (Htot & Hasym & Htrans).
  split; [apply Array_sort_perm|].
  assert (Hin : forall a, a ∈ ts -> date a ∈ map date ts)
    by (intros a Ha; apply list_elem_of_fmap; eauto).
  apply (Array_sort_sorted (by_date_then_time lc) (fun a => a ∈ ts)).
  - intros a b c Ha%Hin Hb%Hin Hc%Hin. unfold newer_first.
    destruct (decide (date a = date b)) as [Eab|Nab],
             (decide (date b = date c)) as [Ebc|Nbc],
             (decide (date a = date c)) as [Eac|Nac];
      intros Hab Hbc; try lia; try congruence.
    + exfalso. rewrite Eac in Hab. exact (Hasym _ _ Hc Hb Hab Hbc).
    + exact (Htrans _ _ _ Ha Hb Hc Hab Hbc).
  - intros a b Ha%Hin Hb%Hin Haft. unfold newer_first. case_decide as Hd.
    + destruct (Z_lt_le_dec (timestamp a) (timestamp b)) as [Hlt|Hle];
        [|exact Hle].
      assert (after (by_date_then_time lc) a b = true)
        by (apply after_by_date_then_time; auto). congruence.
    + destruct (Htot (date a) (date b) Ha Hb Hd) as [H|H]; [exact H|].
      assert (after (by_date_then_time lc) a b = true)
        by (apply after_by_date_then_time; auto). congruence.
  - intros a b Ha%Hin Hb%Hin [[Hd Hlt]|[Hd Hs]]%after_by_date_then_time;
      unfold newer_first; case_decide; try congruence; lia.
  - apply Forall_forall. auto.
Qed.

Lemma sortedTransactions_newer_first_example :
  let t d ts := {| id := str "1"; amount := Number.of_Z 1; type := Expense;
                   category := str "food"; description := str "food";
                   date := d; timestamp := ts |} in
  let ts := [t (str "2024-01-01") 7%Z; t (str "2024-01-02") 3%Z;
             t (str "2024-01-02") 5%Z] in
  sortedTransactions code_unit_compare ts
  = [t (str "2024-01-02") 5%Z; t (str "2024-01-02") 3%Z;
     t (str "2024-01-01") 7%Z]
  /\ StronglySorted (newer_first code_unit_compare)
       (sortedTransactions code_unit_compare ts).
Proof.
  intros t ts. split; [vm_compute; reflexivity|].
  apply (sortedTransactions_newer_first code_unit_compare ts).
  unfold orders_dates. cbn [ts map date t].
  split; [|split]; intros;
    repeat match goal with
           | H : _ ∈ _ :: _ |- _ => apply elem_of_cons in H as [->|H]
           | H : _ ∈ [] |- _ => apply elem_of_nil in H as []
           end;
    try congruence;
    try (left; vm_compute; reflexivity);
    try (right; vm_compute; reflexivity);
    try (vm_compute; reflexivity);
    try (intros Hc; vm_compute in Hc; discriminate);
    try match goal with
        | H : sorts_after _ _ _ |- _ => vm_compute in H; discriminate
        end.
Defined.

End SortedTransactions.

(** * The notes view *)

Section NotesExtras.
Import JSString NotesView.

Lemma handleSaveNote_eq uuid now v :
  trim (newNoteContent v) <> [] ->
  handleSaveNote uuid now v
  = {| notes :=
         match editingId v with
         | Some (c :: e) =>
             map (fun note =>
                    if JSString.eqb (id note) (c :: e)
                    then {| id := id note; content := newNoteContent v;
                            category := newNoteCategory v;
                            createdAt := createdAt note;
                            color := newNoteColor v |}
                    else note)
                 (notes v)
         | _ => {| id := uuid; content := newNoteContent v;
                   category := newNoteCategory v; createdAt := now;
                   color := newNoteColor v |} :: notes v
         end;
       isModalOpen := false; searchQuery := searchQuery v;
       selectedCategory := selectedCategory v; deleteId := deleteId v;
       editingId := None; newNoteContent := [];
       newNoteCategory := newNoteCategory v;
       newNoteColor := newNoteColor v |}.
Proof.
  unfold handleSaveNote. destruct (trim (newNoteContent v)); [congruence|].
  reflexivity.
Qed.

(** X18.  [handleSaveNote] never stores a note whose content is empty or
    only white space: if no listed note is blank, none is afterwards. *)
Theorem handleSaveNote_never_stores_blank uuid now v :
  no_blank_note (notes v) -> no_blank_note (notes (handleSaveNote uuid now v)).
Proof.
  intros Hinv. unfold no_blank_note in *.
  destruct (trim (newNoteContent v)) as [|c s] eqn:Ht.
  { unfold handleSaveNote. rewrite Ht. exact Hinv. }
  assert (Hne : trim (newNoteContent v) <> []) by congruence.
  rewrite (handleSaveNote_eq _ _ _ Hne). cbn [notes].
  destruct (editingId v) as [[|a e]|].
  - constructor; [exact Hne|exact Hinv].
  - apply Forall_map. eapply Forall_impl; [exact Hinv|]. intros n Hn.
    cbn beta. destruct (eqb (id n) (a :: e)); [exact Hne|exact Hn].
  - constructor; [exact Hne|exact Hinv].
Qed.

Lemma handleSaveNote_never_stores_blank_example :
  let n := {| id := str "n1"; content := str "hello"; category := str "life";
              createdAt := 3; color := str "bg-white" |} in
  let v := {| notes := [n]; isModalOpen := true; searchQuery := [];
              selectedCategory := ALL; deleteId := None; editingId := None;
              newNoteContent := str " x "; newNoteCategory := str "life";
              newNoteColor := str "bg-white" |} in
  no_blank_note (notes (handleSaveNote (str "u1") 5 v)).
Proof.
  intros n v. apply handleSaveNote_never_stores_blank.
  constructor; [vm_compute; discriminate|constructor].
Defined.

(** X19.  Opening a listed note with [openEditNoteModal] and saving at
    once with [handleSaveNote] leaves the notes as they were, when ids are
    not repeated and the note's id is not empty. *)
Theorem edit_note_unchanged_is_identity uuid now v note :
  NoDup (map id (notes v)) ->
  note ∈ notes v ->
  id note <> [] ->
  notes (handleSaveNote uuid now (openEditNoteModal note v)) = notes v.
Proof.
  intros Hnd Hin Hid.
  destruct (trim (content note)) as [|c s] eqn:Ht.
  { unfold handleSaveNote, openEditNoteModal. cbn [newNoteContent].
    rewrite Ht. reflexivity. }
  rewrite handleSaveNote_eq
    by (unfold openEditNoteModal; cbn [newNoteContent]; congruence).
  unfold openEditNoteModal. cbn [notes editingId newNoteContent
    newNoteCategory newNoteColor].
  destruct (id note) as [|a e] eqn:Hi; [congruence|].
  rewrite <- Hi. rewrite <- (map_id (notes v)) at 2.
  apply map_ext_in. intros n Hn. unfold eqb. case_bool_decide as Heq; [|reflexivity].
  assert (n = note).
  { apply list_elem_of_In in Hn.
    clear - Hnd Hin Hn Heq. induction (notes v) as [|x l IH]; [inversion Hin|].
    cbn in Hnd. apply NoDup_cons in Hnd as [Hx Hnd].
    apply elem_of_cons in Hin as [->|Hin], Hn as [->|Hn]; auto.
    - exfalso. apply Hx. rewrite <- Heq. apply list_elem_of_fmap. eauto.
    - exfalso. apply Hx. rewrite Heq. apply list_elem_of_fmap. eauto. }
  subst n. destruct note; reflexivity.
Qed.

Lemma edit_note_unchanged_is_identity_example :
  let n := {| id := str "n1"; content := str "hello"; category := str "life";
              createdAt := 3; color := str "bg-white" |} in
  let v := {| notes := [n]; isModalOpen := false; searchQuery := [];
              selectedCategory := ALL; deleteId := None; editingId := None;
              newNoteContent := []; newNoteCategory := str "life";
              newNoteColor := str "bg-white" |} in
  notes (handleSaveNote (str "u1") 5 (openEditNoteModal n v)) = [n].
Proof.
  intros n v. apply (edit_note_unchanged_is_identity (str "u1") 5 v n).
  - cbn. apply NoDup_singleton.
  - apply list_elem_of_here.
  - discriminate.
Defined.

(** X20.  Creating a note with [handleSaveNote] under an id that no listed
    note has, and then confirming the deletion of that id, gives back the
    notes as they were. *)
Theorem note_created_then_deleted uuid now v w :
  trim (newNoteContent v) <> [] ->
  editingId v = None ->
  uuid <> [] ->
  Forall (fun n => id n <> uuid) (notes v) ->
  notes w = notes (handleSaveNote uuid now v) ->
  deleteId w = Some uuid ->
  notes (confirmDelete w) = notes v.
Proof.
  intros Hc He Hu Hfresh Hw Hd.
  rewrite (handleSaveNote_eq _ _ _ Hc), He in Hw. cbn [notes] in Hw.
  unfold confirmDelete. rewrite Hd. destruct uuid as [|c d]; [congruence|].
  cbn [notes]. rewrite Hw.
  rewrite filter_cons_False by (cbn; tauto).
  apply filter_all, Hfresh.
Qed.

Lemma note_created_then_deleted_example :
  let v := {| notes := []; isModalOpen := true; searchQuery := [];
              selectedCategory := ALL; deleteId := None; editingId := None;
              newNoteContent := str "hello"; newNoteCategory := str "life";
              newNoteColor := str "bg-white" |} in
  let w := {| notes := notes (handleSaveNote (str "u1") 5 v);
              isModalOpen := false; searchQuery := [];
              selectedCategory := ALL; deleteId := Some (str "u1");
              editingId := None; newNoteContent := [];
              newNoteCategory := str "life";
              newNoteColor := str "bg-white" |} in
  notes (confirmDelete w) = [].
Proof.
  intros v w. apply (note_created_then_deleted (str "u1") 5 v w).
  - vm_compute. discriminate.
  - reflexivity.
  - discriminate.
  - constructor.
  - reflexivity.
  - reflexivity.
Defined.

(** X21.  [confirmDelete] of the notes view never leaves the edit form
    pointing at a note that is gone. *)
Theorem confirmDelete_keeps_note_editing_listed v :
  note_editing_listed v -> note_editing_listed (confirmDelete v).
Proof.
  intros Hv. unfold confirmDelete.
  destruct (deleteId v) as [[|c d]|]; try exact Hv.
  unfold note_editing_listed. cbn [editingId notes]. intros e He.
  destruct (editingId v) as [e0|] eqn:He0; [|discriminate].
  unfold eqb in He. case_bool_decide as Hne; [discriminate|].
  inversion He; subst e0. specialize (Hv e He0).
  apply list_elem_of_fmap in Hv as (n & -> & Hn).
  apply list_elem_of_fmap. exists n. split; [reflexivity|].
  apply list_elem_of_filter. split; [exact Hne|exact Hn].
Qed.

Lemma confirmDelete_keeps_note_editing_listed_example :
  let n := {| id := str "n1"; content := str "hello"; category := str "life";
              createdAt := 3; color := str "bg-white" |} in
  let v := {| notes := [n]; isModalOpen := true; searchQuery := [];
              selectedCategory := ALL; deleteId := Some (str "n1");
              editingId := Some (str "n1"); newNoteContent := str "hello";
              newNoteCategory := str "life";
              newNoteColor := str "bg-white" |} in
  note_editing_listed (confirmDelete v).
Proof.
  intros n v. apply confirmDelete_keeps_note_editing_listed.
  intros e He. inversion He; subst. apply list_elem_of_here.
Defined.

Lemma after_by_created a b :
  after by_created_desc a b = true <-> (createdAt a < createdAt b)%Z.
Proof.
  unfold after, by_created_desc, Number.of_Z, Number.ltb, Number.zero.
  rewrite negb_true_iff, <- not_true_iff_false, Qle_bool_iff.
  unfold Qle. cbn. lia.
Qed.

(** X22.  [filteredNotes] holds exactly the notes that pass the filter,
    newest first; each is a listed note, and each is in the selected
    category unless the filter is the one for all categories. *)
Theorem filteredNotes_shows_matches_newest_first toLowerCase v :
  Permutation (filteredNotes toLowerCase v)
    (filter (fun n => matches toLowerCase v n = true) (notes v))
  /\ StronglySorted newest_first (filteredNotes toLowerCase v)
  /\ Forall (fun n => n ∈ notes v
                      /\ (selectedCategory v = ALL
                          \/ category n = selectedCategory v))
            (filteredNotes toLowerCase v).
Proof.
  split; [apply Array_sort_perm|]. split.
  - apply (Array_sort_sorted by_created_desc (fun _ => True)).
    + intros a b c _ _ _. unfold newest_first. lia.
    + intros a b _ _ H. unfold newest_first.
      destruct (Z_lt_le_dec (createdAt a) (createdAt b)) as [Hlt|Hle];
        [|exact Hle]. apply after_by_created in Hlt. congruence.
    + intros a b _ _ H%after_by_created. unfold newest_first. lia.
    + apply Forall_forall. auto.
  - apply Forall_forall. intros n Hn. unfold filteredNotes in Hn.
    rewrite Array_sort_perm in Hn.
    apply list_elem_of_filter in Hn as [Hm Hn]. split; [exact Hn|].
    unfold matches in Hm. apply andb_true_iff in Hm as [_ Hm].
    apply orb_true_iff in Hm as [Hm|Hm]; apply eqb_eq in Hm; auto.
Qed.

End NotesExtras.

(** * The application state and its persistence *)

Section AppExtras.
Import JSString JSON storageService Spec.










(** X26.  After [handleReset] memory and storage agree: the getters return
    the notes, transactions and settings of the state, the view is the notes
    view, and loading from storage gives the same data. *)
Theorem handleReset_agrees_with_storage st ls :
  let st' := fst (App.handleReset st ls) in
  let ls' := snd (App.handleReset st ls) in
  getNotes ls' = Ret (App.notes st')
  /\ getTransactions ls' = Ret (App.transactions st')
  /\ getSettings ls' = Ret (App.settings st')
  /\ App.view st' = App.Notes
  /\ App.load st' ls'
     = (Ret {| App.view := App.Notes; App.notes := App.notes st';
               App.transactions := App.transactions st';
               App.settings := App.settings st'; App.isLoaded := true;
               App.alerts := App.alerts st |}, ls').
Proof.
  cbv zeta. unfold App.handleReset. cbn [fst snd App.notes App.transactions
    App.settings App.view].
  assert (Hs : getSettings (resetApplication ls) = Ret (JObj default_settings)).
  { apply getSettings_saved; [apply default_settings_wf|apply lookup_insert_eq]. }
  split; [reflexivity|]. split; [reflexivity|]. split; [exact Hs|].
  split; [reflexivity|].
  unfold App.load, bind, App.read, ret. rewrite Hs. reflexivity.
Qed.

End AppExtras.

(** * Restoring from a file, and the header *)

Section RestoreExtras.
Import JSString JSON storageService Spec.






(** X29.  [handleSave] of the header always leaves editing; a quote that
    is empty or only white space is not passed on, so nothing changes, and
    any other quote is stored as typed, white space included. *)
Theorem header_handleSave_quote tempQuote st ls :
  let onUpdateQuote q (w : App.State * storage) :=
    App.handleUpdateQuote q (fst w) (snd w) in
  let r := Header.handleSave onUpdateQuote tempQuote (st, ls) in
  snd r = false
  /\ (trim tempQuote = [] -> fst r = (st, ls))
  /\ (trim tempQuote <> [] ->
      fst r = App.handleUpdateQuote tempQuote st ls
      /\ field (App.settings (fst (fst r))) (str "headerQuote")
         = Some (JStr tempQuote)).
Proof.
  cbv zeta. unfold Header.handleSave. cbn [fst snd].
  split; [reflexivity|]. split.
  - intros ->. reflexivity.
  - intros Hne. destruct (trim tempQuote); [congruence|].
    split; [reflexivity|].
    unfold App.handleUpdateQuote. cbn [fst snd App.settings field].
    rewrite get_set, eqb_refl. reflexivity.
Qed.

End RestoreExtras.
